(** * Suffix array, LCP array and pattern search

    A shallow embedding of [string_suffix_array_lcp_search.c]:
    [cmpSuffix], [buildSuffixArray] (prefix doubling over [qsort]),
    [buildLCPArray] (Kasai), [searchPattern] (binary search with
    [strncmp]) and [main], followed by the properties of the
    specification and of the code.

    Conventions of the embedding.
    - A text or a pattern is the list of the bytes that precede the
      terminating NUL of the C string; reading one position past the list
      yields the terminator.
    - Offsets, lengths and loop counters that the code keeps non-negative
      are [nat]; ranks, comparator results and the search bounds, which do
      take the value -1, are [Z].  The arithmetic is written without
      wrap-around, so a definition stands for the C function as long as
      every [int] the function computes stays within [int_range]: the
      doubling loop for n <= 2^29, the search for n <= 2^30, Kasai's loop
      for a valid suffix array or n <= 2^30, and [cmpSuffix] on the ranks
      of the loop states ([state_before_bounds]).  A property of
      [buildSuffixArray] or [searchPattern] outside [main], whose buffers
      hold fewer than 1000 bytes, carries its bound as a hypothesis.
    - What C leaves to the implementation is gathered in the class
      [CImpl]: whether plain [char] is signed, and libc's [qsort], of which
      only the contract of the standard is assumed. *)

From Stdlib Require Import ZArith Ascii Lia.
From stdpp Require Import base numbers list sorting.

(** ** Characters *)

(** The value of a byte read as [unsigned char]: what [strncmp] compares,
    and the ordinal of the specification. *)
Definition ordinal (c : ascii) : Z := Z.of_N (N_of_ascii c).

(** The string terminator. *)
Definition NUL : ascii := zero.

(** ** The range of [int] *)

(** [int] has 32 bits, as on the platforms the program is built for. *)
Definition INT_MAX : Z := (2 ^ 31 - 1)%Z.

Definition int_range (z : Z) : Prop := (- INT_MAX - 1 ≤ z ≤ INT_MAX)%Z.

(** ** The C implementation *)

(** The contract the standard puts on the comparison function handed to
    [qsort]: its sign is antisymmetric and "not greater" is transitive. *)
Record comparator {A : Type} (cmp : A → A → Z) : Prop := {
  cmp_sym : ∀ a b, (cmp a b < 0 ↔ 0 < cmp b a)%Z;
  cmp_trans : ∀ a b c, (cmp a b ≤ 0 → cmp b c ≤ 0 → cmp a c ≤ 0)%Z
}.

(** Implementation-defined behaviour the program relies on.  [qsort]
    returns a permutation of its input that is ascending for a consistent
    comparator; the order of elements that compare equal is not fixed. *)
Class CImpl := {
  char_is_signed : bool;
  qsort : ∀ {A : Type}, (A → A → Z) → list A → list A;
  qsort_permutation : ∀ (A : Type) (cmp : A → A → Z) (l : list A),
    qsort cmp l ≡ₚ l;
  qsort_sorted : ∀ (A : Type) (cmp : A → A → Z) (l : list A),
    comparator cmp → StronglySorted (λ a b, (cmp a b ≤ 0)%Z) (qsort cmp l)
}.

(** The conversion of a plain [char] to [int], as in [rank[0] = txt[i]]. *)
Definition char_to_int `{CImpl} (c : ascii) : Z :=
  if char_is_signed && (128 <=? ordinal c)%Z
  then (ordinal c - 256)%Z
  else ordinal c.

(** ** [Suffix] and [cmpSuffix] *)

Record Suffix := mkSuffix { index : nat; rank0 : Z; rank1 : Z }.

(** The differences are those of lines 79 and 80 as long as they lie in
    [int_range], which they do on ranks between -2^30 and 2^30. *)
Definition cmpSuffix (a b : Suffix) : Z :=
  if (rank0 a =? rank0 b)%Z
  then (rank1 a - rank1 b)%Z
  else (rank0 a - rank0 b)%Z.

Definition ranks_within (B : Z) (s : Suffix) : Prop :=
  (- B ≤ rank0 s < B)%Z ∧ (- B ≤ rank1 s < B)%Z.

(** ** [buildSuffixArray] *)

(** [arr[offs[p]] = i + p] for every position [p] of [offs], in order: the
    loops that fill [ind] (line 116 and 129) and [rank] (line 168). *)
Fixpoint store_positions (offs : list nat) (i : nat) (arr : list nat)
  : list nat :=
  match offs with
  | [] => arr
  | o :: offs' => store_positions offs' (S i) (<[o := i]> arr)
  end.

Section BuildSuffixArray.
Context `{CImpl}.

(** Step 1: the initial rank pair of the suffix at offset [i]. *)
Definition init_suffix (txt : list ascii) (n i : nat) : Suffix :=
  {| index := i;
     rank0 := char_to_int (nth i txt NUL);
     rank1 := if i + 1 <? n then char_to_int (nth (i + 1) txt NUL)
              else (-1)%Z |}.

Definition init_suffixes (txt : list ascii) (n : nat) : list Suffix :=
  init_suffix txt n <$> seq 0 n.

(** The re-ranking pass from position 1 on: [rank] is the rank given to
    the previous element, [prev_rank] its old [rank[0]] and [prev_rank1]
    its [rank[1]] (which the pass leaves alone). *)
Fixpoint rerank_from (rank prev_rank prev_rank1 : Z) (l : list Suffix)
  : list Suffix :=
  match l with
  | [] => []
  | s :: l' =>
    if (rank0 s =? prev_rank)%Z && (rank1 s =? prev_rank1)%Z
    then mkSuffix (index s) rank (rank1 s)
         :: rerank_from rank prev_rank (rank1 s) l'
    else mkSuffix (index s) (rank + 1) (rank1 s)
         :: rerank_from (rank + 1) (rank0 s) (rank1 s) l'
  end.

(** The whole pass: the first suffix in sorted order gets rank 0. *)
Definition rerank (l : list Suffix) : list Suffix :=
  match l with
  | [] => []
  | s :: l' =>
    mkSuffix (index s) 0 (rank1 s) :: rerank_from 0 (rank0 s) (rank1 s) l'
  end.

(** The map from offsets to sorted positions.  The C array comes from
    [malloc]; [store_positions_lookup] shows that every cell that is
    read has been written, so its initial content does not matter. *)
Definition fill_ind (n : nat) (sufs : list Suffix) : list nat :=
  store_positions (index <$> sufs) 0 (replicate n 0).

Definition dummy_suffix : Suffix := mkSuffix 0 0 0.

(** The pass assigning [rank[1]] from the rank of the suffix [k/2]
    further on. *)
Definition next_rank (k n : nat) (ind : list nat) (sufs : list Suffix)
  : list Suffix :=
  (λ s,
     let nextIndex := index s + k / 2 in
     mkSuffix (index s) (rank0 s)
       (if nextIndex <? n
        then rank0 (nth (nth nextIndex ind 0) sufs dummy_suffix)
        else (-1)%Z)) <$> sufs.

(** The body of the doubling loop for one value of [k]. *)
Definition doubling_step (k n : nat) (sufs : list Suffix) : list Suffix :=
  let ranked := rerank sufs in
  let ind := fill_ind n ranked in
  qsort cmpSuffix (next_rank k n ind ranked).

(** [for (k = 4; k < 2 * n; k *= 2)], from the current [k].  The [int]s
    [k] and [2 * n] of line 112 are the numbers computed here for
    n <= 2^29: beyond, [k *= 2] leaves the range of [int]. *)
Fixpoint doubling_loop (fuel k n : nat) (sufs : list Suffix)
  : list Suffix :=
  match fuel with
  | 0 => sufs
  | S fuel' =>
    if k <? 2 * n
    then doubling_loop fuel' (2 * k) n (doubling_step k n sufs)
    else sufs
  end.

(** Step 2: the seed order. *)
Definition seed_sorted (txt : list ascii) (n : nat) : list Suffix :=
  qsort cmpSuffix (init_suffixes txt n).

Definition buildSuffixArray (txt : list ascii) (n : nat) : list nat :=
  index <$> doubling_loop n 4 n (seed_sorted txt n).

(** The loop of line 112 once more, keeping a record of its rounds: the
    values of [k] the body ran with, in order, next to the array the loop
    leaves.  There is no result when the iterations allowed are used up
    before the condition fails. *)
Fixpoint doubling_trace (fuel k n : nat) (sufs : list Suffix)
  : option (list nat * list Suffix) :=
  match fuel with
  | 0 => None
  | S fuel' =>
    if k <? 2 * n
    then '(ks, out) ← doubling_trace fuel' (2 * k) n (doubling_step k n sufs);
         Some (k :: ks, out)
    else Some ([], sufs)
  end.

(** The array of suffixes at the head of the iteration number [j] of the
    doubling loop (the one with [k = 4 * 2 ^ j]). *)
Fixpoint state_before (j : nat) (txt : list ascii) (n : nat)
  : list Suffix :=
  match j with
  | 0 => seed_sorted txt n
  | S j' => doubling_step (4 * 2 ^ j') n (state_before j' txt n)
  end.
End BuildSuffixArray.

(** ** [buildLCPArray] *)

(** The inner [while] of Kasai's loop, started at match length [k].  The
    sums [i + k] and [j + k] of line 177 stay below 2 * n
    ([kasai_carried_bound]), within [int] for n <= 2^30. *)
Fixpoint extend (fuel : nat) (txt : list ascii) (n i j k : nat) : nat :=
  match fuel with
  | 0 => k
  | S fuel' =>
    if (i + k <? n) && (j + k <? n)
       && Ascii.eqb (nth (i + k) txt NUL) (nth (j + k) txt NUL)
    then extend fuel' txt n i j (S k)
    else k
  end.

(** One iteration of the outer loop at offset [i]; the state is the carried
    [k] and the output array, whose cells are [None] until written. *)
Definition kasai_step (txt : list ascii) (n : nat) (suffixArr rank : list nat)
    (st : nat * list (option nat)) (i : nat) : nat * list (option nat) :=
  let '(k, lcp) := st in
  let r := nth i rank 0 in
  if r =? n - 1 then (0, lcp)
  else
    let j := nth (r + 1) suffixArr 0 in
    let k' := extend n txt n i j k in
    (pred k', <[r := Some k']> lcp).

Definition buildLCPArray (txt : list ascii) (n : nat) (suffixArr : list nat)
  : list (option nat) :=
  let rank := store_positions suffixArr 0 (replicate n 0) in
  (foldl (kasai_step txt n suffixArr rank) (0, replicate n None) (seq 0 n)).2.

(** ** [searchPattern] *)

(** [strncmp s1 s2 m]: bytes are compared as [unsigned char]; an exhausted
    list stands at its terminator. *)
Fixpoint strncmp (s1 s2 : list ascii) (m : nat) : Z :=
  match m with
  | 0 => 0%Z
  | S m' =>
    let c1 := hd NUL s1 in
    let c2 := hd NUL s2 in
    if (ordinal c1 =? ordinal c2)%Z
    then if (ordinal c1 =? 0)%Z then 0%Z else strncmp (tl s1) (tl s2) m'
    else (ordinal c1 - ordinal c2)%Z
  end.

(** The loop of lines 198 to 207 on the range [low .. high].  The sum
    [low + high] of line 199 is at most 2 * n - 2, within [int] for
    n <= 2^30.  The iterations allowed to [searchPattern] are never used
    up ([search_loop_fuel], [search_trace_runs]). *)
Fixpoint search_loop (fuel : nat) (txt : list ascii) (suffixArr : list nat)
    (pat : list ascii) (m : nat) (low high : Z) : Z :=
  match fuel with
  | 0 => (-1)%Z
  | S fuel' =>
    if (low <=? high)%Z then
      let mid := ((low + high) ÷ 2)%Z in
      let o := nth (Z.to_nat mid) suffixArr 0 in
      let res := strncmp pat (drop o txt) m in
      if (res =? 0)%Z then Z.of_nat o
      else if (res <? 0)%Z
           then search_loop fuel' txt suffixArr pat m low (mid - 1)%Z
           else search_loop fuel' txt suffixArr pat m (mid + 1)%Z high
    else (-1)%Z
  end.

Definition searchPattern (txt : list ascii) (suffixArr : list nat) (n : nat)
    (pat : list ascii) : Z :=
  let m := length pat in
  search_loop (S n) txt suffixArr pat m 0%Z (Z.of_nat n - 1)%Z.

(** The same loop, keeping a record of its probes: the pairs
    [(low, high)] the body ran with, in order, next to the value
    returned.  There is no result when the iterations allowed are used up
    before the loop ends. *)
Fixpoint search_trace (fuel : nat) (txt : list ascii) (suffixArr : list nat)
    (pat : list ascii) (m : nat) (low high : Z) : option (list (Z * Z) * Z) :=
  match fuel with
  | 0 => None
  | S fuel' =>
    if (low <=? high)%Z then
      let mid := ((low + high) ÷ 2)%Z in
      let o := nth (Z.to_nat mid) suffixArr 0 in
      let res := strncmp pat (drop o txt) m in
      if (res =? 0)%Z then Some ([(low, high)], Z.of_nat o)
      else
        '(probes, r) ←
          (if (res <? 0)%Z
           then search_trace fuel' txt suffixArr pat m low (mid - 1)%Z
           else search_trace fuel' txt suffixArr pat m (mid + 1)%Z high);
        Some ((low, high) :: probes, r)
    else Some ([], (-1)%Z)
  end.

(** ** [main] *)

(** Standard input is a list of bytes; a run of [main] is the list of its
    [printf] calls with their arguments, and [None] when the run has no
    defined behaviour. *)

(** [isspace] in the C locale: space, and the bytes 9 to 13. *)
Definition isspace (c : ascii) : bool :=
  (ordinal c =? 32)%Z || ((9 <=? ordinal c)%Z && (ordinal c <=? 13)%Z).

Fixpoint skip_while (f : ascii → bool) (s : list ascii) : list ascii :=
  match s with
  | c :: s' => if f c then skip_while f s' else s
  | [] => []
  end.

Fixpoint read_while (f : ascii → bool) (s : list ascii) : list ascii :=
  match s with
  | c :: s' => if f c then c :: read_while f s' else []
  | [] => []
  end.

(** [scanf("%s", buf)] into a buffer of [cap] bytes: white space is
    skipped and the bytes up to the next white space are stored, followed
    by a NUL.  The result is the stored bytes and the input left.  When
    the input ends before a byte is read nothing is stored, and [main]
    goes on to read the buffer it never filled; when the bytes and their
    NUL do not fit, the store runs past the buffer: both are [None]. *)
Definition scanf_s (cap : nat) (stdin : list ascii)
  : option (list ascii * list ascii) :=
  let s := skip_while isspace stdin in
  let tok := read_while (λ c, negb (isspace c)) s in
  if (length tok =? 0) || (cap <=? length tok) then None
  else Some (tok, drop (length tok) s).

(** The C string a buffer holds: its bytes before the first NUL. *)
Definition c_string (buf : list ascii) : list ascii :=
  read_while (λ c, negb (Ascii.eqb c NUL)) buf.

(** The calls of [printf], in the order of the source. *)
Inductive output : Type :=
  | PromptText
    (* printf("Enter text: ") *)
  | SuffixArrayHeader
    (* printf("\n--- Suffix Array ---\n") *)
  | SuffixLine (off : nat) (suffix : list ascii)
    (* printf("%2d : %s\n", suffixArr[i], txt + suffixArr[i]) *)
  | LcpHeader
    (* printf("\n--- LCP Array ---\n") *)
  | LcpLine (i : nat) (v : nat)
    (* printf("lcp[%2d] = %d\n", i, lcp[i]) *)
  | PromptPattern
    (* printf("\nEnter pattern to search: ") *)
  | PatternFound (pos : Z)
    (* printf("... Pattern found at index %d\n", pos) *)
  | PatternNotFound.
    (* printf("... Pattern not found\n") *)

(** [main]: the printed calls and the exit status.  Printing [lcp[i]]
    reads the cell; a cell never written has no defined value. *)
Definition main `{CImpl} (stdin : list ascii) : option (list output * Z) :=
  '(buf, rest) ← scanf_s 1000 stdin;
  let txt := c_string buf in
  let n := length txt in
  let suffixArr := buildSuffixArray txt n in
  let lcp := buildLCPArray txt n suffixArr in
  let sa_lines :=
    (λ i, SuffixLine (nth i suffixArr 0) (drop (nth i suffixArr 0) txt))
      <$> seq 0 n in
  lcp_lines ← mapM (λ i, v ← mjoin (lcp !! i); Some (LcpLine i v))
                   (seq 0 (n - 1));
  '(pbuf, _) ← scanf_s 100 rest;
  let pat := c_string pbuf in
  let pos := searchPattern txt suffixArr n pat in
  Some ([PromptText; SuffixArrayHeader] ++ sa_lines
        ++ [LcpHeader] ++ lcp_lines
        ++ [PromptPattern;
            if (pos =? -1)%Z then PatternNotFound else PatternFound pos],
        0%Z).

(** The suffix lines and the LCP lines of an output. *)
Definition suffix_lines (out : list output) : list (nat * list ascii) :=
  omap (λ e, match e with SuffixLine o s => Some (o, s) | _ => None end) out.

Definition lcp_lines (out : list output) : list (nat * nat) :=
  omap (λ e, match e with LcpLine i v => Some (i, v) | _ => None end) out.

(** ** Two implementations *)

(** "Not greater" for a C comparison function. *)
Definition cmp_le {A : Type} (cmp : A → A → Z) : relation A :=
  λ a b, (cmp a b ≤ 0)%Z.

#[local] Instance cmp_le_dec {A : Type} (cmp : A → A → Z) (a b : A)
  : Decision (cmp_le cmp a b) := Z.le_dec (cmp a b) 0%Z.

(** A merge sort, as glibc's [qsort] is. *)
Definition sort_by {A : Type} (cmp : A → A → Z) (l : list A) : list A :=
  merge_sort (cmp_le cmp) l.

(** An implementation with the given signedness of plain [char] and the
    merge sort for [qsort]; the two proofs show that it meets the contract. *)
Definition merge_sort_impl (signed : bool) : CImpl.
Proof.
  refine {| char_is_signed := signed; qsort := @sort_by |}.
  - intros A cmp l. apply merge_sort_Permutation.
  - intros A cmp l [Hsym Htrans].
    assert (Transitive (cmp_le cmp)) by (intros a b c; apply Htrans).
    assert (Total (cmp_le cmp)).
    { intros a b. unfold cmp_le.
      destruct (Z.le_gt_cases (cmp a b) 0) as [Hle | Hgt]; [by left | right].
      assert (cmp b a < 0)%Z by (apply Hsym; lia). lia. }
    apply (StronglySorted_merge_sort (cmp_le cmp)).
Defined.

(** Plain [char] signed, as on x86 and x86-64. *)
Definition impl_signed : CImpl := merge_sort_impl true.

(** Plain [char] unsigned, as on ARM and POWER. *)
Definition impl_unsigned : CImpl := merge_sort_impl false.

(** ** Vocabulary of the specification *)

(** Lexicographic comparison of byte strings by ordinal; a proper prefix is
    smaller. *)
Fixpoint lex_compare (a b : list ascii) : comparison :=
  match a, b with
  | [], [] => Eq
  | [], _ :: _ => Lt
  | _ :: _, [] => Gt
  | x :: a', y :: b' =>
    match (ordinal x ?= ordinal y)%Z with
    | Eq => lex_compare a' b'
    | c => c
    end
  end.

Definition lex_le (a b : list ascii) : Prop := lex_compare a b ≠ Gt.

(** Length of the longest common prefix, by brute-force comparison. *)
Fixpoint lcp_len (a b : list ascii) : nat :=
  match a, b with
  | x :: a', y :: b' => if Ascii.eqb x y then S (lcp_len a' b') else 0
  | _, _ => 0
  end.

(** [SA] lists offsets whose suffixes ascend. *)
Definition sorted_sa (txt : list ascii) (SA : list nat) : Prop :=
  ∀ p i j, SA !! p = Some i → SA !! S p = Some j →
    lex_le (drop i txt) (drop j txt).

(** The precondition of [buildLCPArray] and [searchPattern]. *)
Definition valid_sa (txt : list ascii) (SA : list nat) : Prop :=
  SA ≡ₚ seq 0 (length txt) ∧ sorted_sa txt SA.

(** Every byte of the text reads as a non-negative [char]: any text when
    plain [char] is unsigned, 7-bit text when it is signed. *)
Definition nonneg_chars `{CImpl} (txt : list ascii) : Prop :=
  Forall (λ c, (0 ≤ char_to_int c)%Z) txt.

(** The first [h] bytes of the suffix at offset [i], cut at the end of the
    text. *)
Definition pre (txt : list ascii) (h i : nat) : list ascii :=
  take h (drop i txt).

(** Comparison of rank pairs, [rank[0]] first. *)
Definition key_compare (a b : Suffix) : comparison :=
  match (rank0 a ?= rank0 b)%Z with
  | Eq => (rank1 a ?= rank1 b)%Z
  | c => c
  end.

(** Equal [rank[0]] exactly for the suffixes that agree on their first
    [min h N] bytes. *)
Definition rank0_classifies (txt : list ascii) (h : nat)
    (sufs : list Suffix) : Prop :=
  ∀ a b, a ∈ sufs → b ∈ sufs →
    rank0 a = rank0 b ↔
    pre txt (h `min` length txt) (index a)
    = pre txt (h `min` length txt) (index b).

(** An array of suffixes in the order [qsort] leaves it. *)
Definition sorted_by_key (l : list Suffix) : Prop :=
  StronglySorted (λ a b, (cmpSuffix a b ≤ 0)%Z) l.

(** Rank pairs compare as the first [h] bytes of the suffixes do. *)
Definition keyed (txt : list ascii) (h : nat) (sufs : list Suffix) : Prop :=
  ∀ a b, a ∈ sufs → b ∈ sufs →
    key_compare a b
    = lex_compare (pre txt h (index a)) (pre txt h (index b)).

(** The state of the array after each [qsort]: all offsets, ordered by
    rank pairs that stand for the first [h] bytes. *)
Record sa_inv (txt : list ascii) (h : nat) (sufs : list Suffix) : Prop := {
  inv_perm : index <$> sufs ≡ₚ seq 0 (length txt);
  inv_keyed : keyed txt h sufs;
  inv_sorted : sorted_by_key sufs
}.

(** The value the specification gives to position [p] of the LCP array. *)
Definition lcp_at (txt : list ascii) (SA : list nat) (p : nat) : nat :=
  lcp_len (drop (nth p SA 0) txt) (drop (nth (S p) SA 0) txt).

(** The state of Kasai's loop after the iterations for the offsets below
    [i]. *)
Definition kasai_state (txt : list ascii) (SA : list nat) (i : nat)
  : nat * list (option nat) :=
  foldl (kasai_step txt (length txt) SA
           (store_positions SA 0 (replicate (length txt) 0)))
        (0, replicate (length txt) None) (seq 0 i).

(** Its invariant: the cells of the processed offsets hold their values,
    the others are unwritten, and the carried [k] is a lower bound for the
    offset that comes next. *)
Record kasai_inv (txt : list ascii) (SA : list nat) (i : nat)
    (st : nat * list (option nat)) : Prop := {
  kasai_len : length st.2 = length txt;
  kasai_cells : ∀ p x, SA !! p = Some x →
    st.2 !! p = Some (if decide (x < i ∧ p ≠ length txt - 1)
                      then Some (lcp_at txt SA p) else None);
  kasai_k : i < length txt →
    nth i (store_positions SA 0 (replicate (length txt) 0)) 0
      ≠ length txt - 1 →
    st.1 ≤ lcp_at txt SA
             (nth i (store_positions SA 0 (replicate (length txt) 0)) 0)
}.

(** The comparison [searchPattern] makes at sorted position [p]. *)
Definition res_at (txt : list ascii) (SA : list nat) (pat : list ascii)
    (p : nat) : Z :=
  strncmp pat (drop (nth p SA 0) txt) (length pat).

(** ** Sample texts *)

Definition banana : list ascii := ["b"; "a"; "n"; "a"; "n"; "a"]%char.

(** Its suffix array, as in the header of the source file. *)
Definition banana_sa : list nat := [5; 3; 1; 0; 4; 2].

Definition ana : list ascii := ["a"; "n"; "a"]%char.

Definition abab : list ascii := ["a"; "b"; "a"; "b"]%char.

(** What a user types for the example run of the source file: the text,
    a newline, the pattern, a newline. *)
Definition banana_input : list ascii :=
  banana ++ ["010"%char] ++ ana ++ ["010"%char].

(** The bytes of "a", e-acute in UTF-8 (0xC3 0xA9), "a". *)
Definition high_bytes : list ascii :=
  [ascii_of_nat 97; ascii_of_nat 195; ascii_of_nat 169; ascii_of_nat 97].

(** * Proofs *)

(** ** Bytes and the lexicographic order *)

Lemma ordinal_range (c : ascii) : (0 ≤ ordinal c < 256)%Z.
Proof.
  unfold ordinal. pose proof (N_ascii_bounded c). lia.
Qed.

Lemma ordinal_inj (c d : ascii) : ordinal c = ordinal d → c = d.
Proof.
  unfold ordinal. intros Heq. apply N2Z.inj in Heq.
  rewrite <- (ascii_N_embedding c), <- (ascii_N_embedding d). by f_equal.
Qed.

Lemma ordinal_NUL (c : ascii) : ordinal c = 0%Z ↔ c = NUL.
Proof.
  split; [| by intros ->].
  intros Hc. apply ordinal_inj. by rewrite Hc.
Qed.

Lemma lex_compare_refl (a : list ascii) : lex_compare a a = Eq.
Proof.
  induction a as [| x a IH]; [done |].
  simpl. by rewrite Z.compare_refl.
Qed.

Lemma lex_compare_eq (a b : list ascii) : lex_compare a b = Eq → a = b.
Proof.
  revert b. induction a as [| x a IH]; intros [| y b]; simpl; try done.
  destruct (Z.compare_spec (ordinal x) (ordinal y)) as [Hxy | |]; try done.
  intros Hab. f_equal; [by apply ordinal_inj | by apply IH].
Qed.

Lemma lex_compare_antisym (a b : list ascii) :
  lex_compare b a = CompOpp (lex_compare a b).
Proof.
  revert b. induction a as [| x a IH]; intros [| y b]; simpl; try done.
  rewrite (Z.compare_antisym (ordinal x) (ordinal y)).
  destruct (ordinal x ?= ordinal y)%Z; simpl; auto.
Qed.

Lemma lex_le_refl (a : list ascii) : lex_le a a.
Proof. unfold lex_le. by rewrite lex_compare_refl. Qed.

Lemma lex_le_trans (a b c : list ascii) :
  lex_le a b → lex_le b c → lex_le a c.
Proof.
  unfold lex_le. revert b c.
  induction a as [| x a IH]; intros [| y b] [| z c]; simpl; try done.
  destruct (Z.compare_spec (ordinal x) (ordinal y)) as [Hxy | Hxy | Hxy],
           (Z.compare_spec (ordinal y) (ordinal z)) as [Hyz | Hyz | Hyz],
           (Z.compare_spec (ordinal x) (ordinal z)) as [Hxz | Hxz | Hxz];
    try done; try lia.
  apply IH.
Qed.

Lemma lex_le_antisym (a b : list ascii) : lex_le a b → lex_le b a → a = b.
Proof.
  unfold lex_le. rewrite (lex_compare_antisym a b).
  intros Hab Hba. apply lex_compare_eq.
  destruct (lex_compare a b); simpl in *; congruence.
Qed.

Lemma lex_le_total (a b : list ascii) : lex_le a b ∨ lex_le b a.
Proof.
  unfold lex_le. rewrite (lex_compare_antisym a b).
  destruct (lex_compare a b); simpl; auto.
Qed.

(** Comparing the first [h + h'] bytes: the first [h] decide, and on a tie
    the next [h']. *)
Lemma lex_compare_take_add (h h' : nat) (a b : list ascii) :
  lex_compare (take (h + h') a) (take (h + h') b)
  = match lex_compare (take h a) (take h b) with
    | Eq => lex_compare (take h' (drop h a)) (take h' (drop h b))
    | c => c
    end.
Proof.
  revert a b. induction h as [| h IH]; intros a b; [done |].
  destruct a as [| x a], b as [| y b]; simpl.
  - by rewrite !take_nil.
  - done.
  - done.
  - destruct (ordinal x ?= ordinal y)%Z; auto.
Qed.

Lemma lex_le_take (m : nat) (a b : list ascii) :
  lex_le a b → lex_le (take m a) (take m b).
Proof.
  unfold lex_le. revert a b.
  induction m as [| m IH]; intros [| x a] [| y b]; simpl; try done.
  destruct (ordinal x ?= ordinal y)%Z; auto.
Qed.

Lemma lex_compare_take_ge (h : nat) (a b : list ascii) :
  length a ≤ h → length b ≤ h →
  lex_compare (take h a) (take h b) = lex_compare a b.
Proof. intros Ha Hb. by rewrite !take_ge. Qed.

(** ** Longest common prefixes *)

Lemma lcp_len_cons (x : ascii) (a b : list ascii) :
  lcp_len (x :: a) (x :: b) = S (lcp_len a b).
Proof. simpl. by rewrite Ascii.eqb_refl. Qed.

Lemma lcp_len_pos (a b : list ascii) :
  0 < lcp_len a b →
  ∃ x a' b', a = x :: a' ∧ b = x :: b' ∧ lcp_len a b = S (lcp_len a' b').
Proof.
  destruct a as [| x a], b as [| y b]; simpl; try lia.
  destruct (Ascii.eqb_spec x y) as [-> | Hne]; [| lia].
  intros _. by exists y, a, b.
Qed.

(** Between two strings of a sorted sequence, the nearer one shares at
    least as long a prefix. *)
Lemma lcp_len_sandwich (a b c : list ascii) :
  lex_le a b → lex_le b c → lcp_len a c ≤ lcp_len a b.
Proof.
  unfold lex_le. revert b c.
  induction a as [| x a IH]; intros [| y b] [| z c]; simpl; try done; try lia.
  destruct (Ascii.eqb_spec x z) as [<- | Hxz]; [| lia].
  destruct (Z.compare_spec (ordinal x) (ordinal y)) as [Hxy | Hxy | Hxy];
    try done.
  - apply ordinal_inj in Hxy as <-.
    rewrite Z.compare_refl, Ascii.eqb_refl.
    intros Hab Hbc. specialize (IH b c Hab Hbc). lia.
  - rewrite (Z.compare_antisym (ordinal x) (ordinal y)).
    destruct (Z.compare_spec (ordinal x) (ordinal y)); simpl; try done; lia.
Qed.

(** ** The comparator and rank pairs *)

Ltac key_cases :=
  unfold cmpSuffix, key_compare in *;
  repeat match goal with
  | |- context [(?x =? ?y)%Z] => destruct (Z.eqb_spec x y)
  | H : context [(?x =? ?y)%Z] |- _ => destruct (Z.eqb_spec x y)
  | |- context [(?x ?= ?y)%Z] => destruct (Z.compare_spec x y)
  | H : context [(?x ?= ?y)%Z] |- _ => destruct (Z.compare_spec x y)
  end;
  simpl in *;
  try first [ done | lia | congruence
            | split; intros; first [ done | lia | congruence ] ].

Lemma cmpSuffix_comparator : comparator cmpSuffix.
Proof.
  split.
  - intros a b. key_cases.
  - intros a b c. key_cases.
Qed.

Lemma cmpSuffix_le_key (a b : Suffix) :
  (cmpSuffix a b ≤ 0)%Z ↔ key_compare a b ≠ Gt.
Proof. key_cases. Qed.

Lemma key_compare_refl (a : Suffix) : key_compare a a = Eq.
Proof. key_cases. Qed.

Lemma key_compare_antisym (a b : Suffix) :
  key_compare b a = CompOpp (key_compare a b).
Proof. key_cases. Qed.

Lemma key_compare_Eq (a b : Suffix) :
  key_compare a b = Eq ↔ rank0 a = rank0 b ∧ rank1 a = rank1 b.
Proof. key_cases. Qed.

Lemma key_compare_Lt_le (a b c : Suffix) :
  key_compare a b = Lt → key_compare b c ≠ Gt → key_compare a c = Lt.
Proof. key_cases. Qed.

Lemma key_compare_same_key (a b c : Suffix) :
  rank0 b = rank0 c → rank1 b = rank1 c →
  key_compare a b = key_compare a c.
Proof. intros Hb0 Hb1. unfold key_compare. by rewrite Hb0, Hb1. Qed.

(** ** The re-ranking pass *)

(** Both branches of the pass, in one shape: the element gets rank [r],
    and [r] with its old pair is what the next comparison sees. *)
Lemma rerank_from_cons (rank prev_rank prev_rank1 : Z) (s : Suffix)
    (l : list Suffix) :
  rerank_from rank prev_rank prev_rank1 (s :: l)
  = let r := if (rank0 s =? prev_rank)%Z && (rank1 s =? prev_rank1)%Z
             then rank else (rank + 1)%Z in
    mkSuffix (index s) r (rank1 s) :: rerank_from r (rank0 s) (rank1 s) l.
Proof.
  simpl.
  destruct (Z.eqb_spec (rank0 s) prev_rank) as [-> | Hne]; simpl; [| done].
  by destruct (rank1 s =? prev_rank1)%Z.
Qed.

#[local] Arguments rerank_from : simpl never.

Lemma rerank_from_index (rank prev_rank prev_rank1 : Z) (l : list Suffix) :
  index <$> rerank_from rank prev_rank prev_rank1 l = index <$> l.
Proof.
  revert rank prev_rank prev_rank1.
  induction l as [| s l IH]; intros rank pr pr1; [done |].
  rewrite rerank_from_cons. cbn zeta. rewrite !fmap_cons. simpl.
  by rewrite IH.
Qed.

Lemma rerank_index (l : list Suffix) : index <$> rerank l = index <$> l.
Proof.
  destruct l as [| s l]; [done |].
  simpl. by rewrite rerank_from_index.
Qed.

Lemma rerank_length (l : list Suffix) : length (rerank l) = length l.
Proof.
  rewrite <- (length_fmap index (rerank l)), rerank_index.
  apply length_fmap.
Qed.

(** Ranks handed out after an element [p] of rank [rank]: never smaller,
    and equal to [rank] exactly on the elements with the pair of [p]. *)
Lemma rerank_from_head (l : list Suffix) :
  ∀ (rank : Z) (p : Suffix) (i : nat) (s s' : Suffix),
    sorted_by_key (p :: l) →
    l !! i = Some s →
    rerank_from rank (rank0 p) (rank1 p) l !! i = Some s' →
    (rank ≤ rank0 s')%Z ∧ (rank0 s' ?= rank)%Z = key_compare s p.
Proof.
  induction l as [| x l IH]; intros rank p i s s' Hsorted Hs Hs'; [done |].
  rewrite rerank_from_cons in Hs'. cbn zeta in Hs'.
  apply StronglySorted_inv in Hsorted as [Hsorted Hp].
  pose proof (Forall_inv Hp) as Hpx. apply cmpSuffix_le_key in Hpx.
  set (r := if (rank0 x =? rank0 p)%Z && (rank1 x =? rank1 p)%Z
            then rank else (rank + 1)%Z) in *.
  assert (Hr : (r = rank ∧ rank0 x = rank0 p ∧ rank1 x = rank1 p)
             ∨ (r = rank + 1 ∧ key_compare p x = Lt)%Z).
  { subst r.
    destruct (Z.eqb_spec (rank0 x) (rank0 p)) as [H0 | H0],
             (Z.eqb_spec (rank1 x) (rank1 p)) as [H1 | H1]; simpl;
      first [by left | right; split; [done |]];
      revert Hpx; key_cases. }
  destruct i as [| i]; simpl in Hs, Hs'.
  - injection Hs as <-. injection Hs' as <-. simpl.
    destruct Hr as [(-> & H0 & H1) | [-> Hlt]].
    + split; [lia |]. rewrite Z.compare_refl. symmetry.
      by apply key_compare_Eq.
    + split; [lia |]. rewrite (key_compare_antisym p x), Hlt. simpl.
      apply Z.compare_gt_iff. lia.
  - destruct (IH r x i s s' Hsorted Hs Hs') as [Hle Hcmp].
    destruct Hr as [(-> & H0 & H1) | [-> Hlt]].
    + split; [done |]. rewrite Hcmp. by apply key_compare_same_key.
    + split; [lia |].
      assert (Hxs : key_compare x s ≠ Gt).
      { apply cmpSuffix_le_key.
        apply StronglySorted_inv in Hsorted as [_ Hx].
        rewrite Forall_forall in Hx. apply Hx.
        by apply list_elem_of_lookup_2 with i. }
      rewrite (key_compare_antisym p s), (key_compare_Lt_le p x s Hlt Hxs).
      simpl. apply Z.compare_gt_iff. lia.
Qed.

(** New ranks compare as the old pairs did. *)
Lemma ranked_pairwise (l : list Suffix) :
  ∀ (r : Z) (x : Suffix) (i j : nat) (s t s' t' : Suffix),
    sorted_by_key (x :: l) →
    (x :: l) !! i = Some s → (x :: l) !! j = Some t →
    (mkSuffix (index x) r (rank1 x)
       :: rerank_from r (rank0 x) (rank1 x) l) !! i = Some s' →
    (mkSuffix (index x) r (rank1 x)
       :: rerank_from r (rank0 x) (rank1 x) l) !! j = Some t' →
    (rank0 s' ?= rank0 t')%Z = key_compare s t.
Proof.
  induction l as [| y l IH]; intros r x i j s t s' t' Hsorted Hs Ht Hs' Ht'.
  - destruct i as [| i], j as [| j]; try done. simpl in *.
    injection Hs as <-. injection Ht as <-.
    injection Hs' as <-. injection Ht' as <-. simpl.
    by rewrite Z.compare_refl, key_compare_refl.
  - destruct i as [| i], j as [| j]; simpl in Hs, Ht, Hs', Ht'.
    + injection Hs as <-. injection Ht as <-.
      injection Hs' as <-. injection Ht' as <-. simpl.
      by rewrite Z.compare_refl, key_compare_refl.
    + injection Hs as <-. injection Hs' as <-. simpl.
      destruct (rerank_from_head (y :: l) r x j t t' Hsorted Ht Ht')
        as [_ Hcmp].
      by rewrite Z.compare_antisym, Hcmp, (key_compare_antisym t x).
    + injection Ht as <-. injection Ht' as <-. simpl.
      by destruct (rerank_from_head (y :: l) r x i s s' Hsorted Hs Hs').
    + rewrite rerank_from_cons in Hs', Ht'. cbn zeta in Hs', Ht'.
      apply StronglySorted_inv in Hsorted as [Hsorted _].
      by eapply (IH _ y i j).
Qed.

Lemma rerank_pairwise (l : list Suffix) (i j : nat) (s t s' t' : Suffix) :
  sorted_by_key l →
  l !! i = Some s → l !! j = Some t →
  rerank l !! i = Some s' → rerank l !! j = Some t' →
  (rank0 s' ?= rank0 t')%Z = key_compare s t.
Proof.
  destruct l as [| x l]; [done |]. apply ranked_pairwise.
Qed.

Lemma rerank_nonneg (l : list Suffix) (s' : Suffix) :
  sorted_by_key l → s' ∈ rerank l → (0 ≤ rank0 s')%Z.
Proof.
  intros Hsorted [i Hs']%list_elem_of_lookup_1.
  destruct l as [| x l]; [done |].
  destruct i as [| i]; simpl in Hs'.
  - by injection Hs' as <-.
  - assert (is_Some (l !! i)) as [s Hs].
    { apply lookup_lt_is_Some. apply lookup_lt_Some in Hs'.
      rewrite <- (length_fmap index), rerank_from_index, length_fmap in Hs'.
      done. }
    by destruct (rerank_from_head l 0 x i s s' Hsorted Hs Hs').
Qed.

(** ** Arrays of positions and permutations of the offsets *)

Lemma store_positions_length (offs : list nat) (i : nat) (arr : list nat) :
  length (store_positions offs i arr) = length arr.
Proof.
  revert i arr. induction offs as [| o offs IH]; intros i arr; [done |].
  simpl. by rewrite IH, length_insert.
Qed.

Lemma store_positions_other (offs : list nat) (i : nat) (arr : list nat)
    (x : nat) :
  x ∉ offs → store_positions offs i arr !! x = arr !! x.
Proof.
  revert i arr. induction offs as [| o offs IH]; intros i arr Hx; [done |].
  apply not_elem_of_cons in Hx as [Hxo Hx].
  simpl. rewrite IH by done. by apply list_lookup_insert_ne.
Qed.

(** After the loop, the cell of the offset stored at position [p] holds
    [p], whatever the array held before. *)
Lemma store_positions_lookup (offs : list nat) :
  ∀ (i : nat) (arr : list nat) (p x : nat),
    NoDup offs → offs !! p = Some x → x < length arr →
    store_positions offs i arr !! x = Some (i + p).
Proof.
  induction offs as [| o offs IH]; intros i arr p x Hnd Hp Hx; [done |].
  apply NoDup_cons in Hnd as [Ho Hnd].
  destruct p as [| p]; simpl in Hp |- *.
  - injection Hp as ->.
    rewrite store_positions_other by done.
    rewrite list_lookup_insert_eq by done. f_equal. lia.
  - rewrite (IH (S i) _ p x) by (by rewrite ?length_insert).
    f_equal. lia.
Qed.

Lemma perm_seq_length (l : list nat) (n : nat) :
  l ≡ₚ seq 0 n → length l = n.
Proof. intros Hp. by rewrite (Permutation_length Hp), length_seq. Qed.

Lemma perm_seq_NoDup (l : list nat) (n : nat) : l ≡ₚ seq 0 n → NoDup l.
Proof. intros Hp. rewrite Hp. apply NoDup_seq. Qed.

Lemma perm_seq_elem (l : list nat) (n x : nat) :
  l ≡ₚ seq 0 n → x ∈ l ↔ x < n.
Proof. intros Hp. rewrite Hp, elem_of_seq. lia. Qed.

Lemma perm_seq_lookup_lt (l : list nat) (n p x : nat) :
  l ≡ₚ seq 0 n → l !! p = Some x → x < n.
Proof.
  intros Hp Hx. apply (perm_seq_elem l n x Hp).
  by apply list_elem_of_lookup_2 with p.
Qed.

Lemma perm_seq_position (l : list nat) (n x : nat) :
  l ≡ₚ seq 0 n → x < n → ∃ p, p < n ∧ l !! p = Some x.
Proof.
  intros Hp Hx. apply (perm_seq_elem l n x Hp) in Hx.
  apply list_elem_of_lookup_1 in Hx as [p Hp'].
  exists p. split; [| done].
  apply lookup_lt_Some in Hp'. by rewrite (perm_seq_length l n Hp) in Hp'.
Qed.

(** The inverse array built from a permutation of the offsets. *)
Lemma inverse_lookup (l : list nat) (n p x : nat) :
  l ≡ₚ seq 0 n → l !! p = Some x →
  nth x (store_positions l 0 (replicate n 0)) 0 = p.
Proof.
  intros Hp Hx. apply nth_lookup_Some.
  rewrite (store_positions_lookup l 0 _ p x); [done | | done |].
  - by apply perm_seq_NoDup with n.
  - rewrite length_replicate. by apply perm_seq_lookup_lt with l p.
Qed.

Lemma StronglySorted_lookup_lt {A : Type} (R : relation A) (l : list A)
    (p q : nat) (a b : A) :
  StronglySorted R l → l !! p = Some a → l !! q = Some b → p < q → R a b.
Proof.
  intros Hsorted. revert p q.
  induction Hsorted as [| x l Hsorted IH Hx]; intros p q Ha Hb Hpq; [done |].
  destruct q as [| q]; [lia |]. simpl in Hb.
  destruct p as [| p]; simpl in Ha.
  - injection Ha as <-. rewrite Forall_forall in Hx.
    apply Hx. by apply list_elem_of_lookup_2 with q.
  - apply (IH p q); [done | done | lia].
Qed.

(** ** The invariant of prefix doubling *)

Section Doubling.
Context `{CImpl}.
Variable txt : list ascii.

(** Composing two ranks of [h]-byte blocks gives a pair that stands for
    [h + h] bytes; -1 marks a second block that is past the end. *)
Lemma pair_keyed (R : nat → Z) (h : nat) (l : list Suffix) :
  0 < h →
  (∀ i, i < length txt → (0 ≤ R i)%Z) →
  (∀ i j, i < length txt → j < length txt →
     (R i ?= R j)%Z = lex_compare (pre txt h i) (pre txt h j)) →
  (∀ a, a ∈ l →
     index a < length txt ∧ rank0 a = R (index a) ∧
     rank1 a = if index a + h <? length txt
               then R (index a + h) else (-1)%Z) →
  keyed txt (h + h) l.
Proof.
  intros Hh Hnonneg HR Hl a b Ha Hb.
  destruct (Hl a Ha) as (Hia & Ha0 & Ha1).
  destruct (Hl b Hb) as (Hib & Hb0 & Hb1).
  unfold key_compare, pre.
  rewrite lex_compare_take_add, !drop_drop, Ha0, Hb0, Ha1, Hb1.
  rewrite (HR _ _ Hia Hib). unfold pre.
  destruct (lex_compare (take h (drop (index a) txt))
                        (take h (drop (index b) txt))); try done.
  assert (Hempty : ∀ i, ¬ i < length txt → take h (drop i txt) = []).
  { intros i Hi. rewrite drop_ge by lia. apply take_nil. }
  assert (Hfull : ∀ i, i < length txt →
            ∃ x r, take h (drop i txt) = x :: r).
  { intros i Hi. destruct (lookup_lt_is_Some_2 txt i Hi) as [x Hx].
    rewrite (drop_S _ _ _ Hx). destruct h as [| h']; [lia |].
    by exists x, (take h' (drop (S i) txt)). }
  destruct (Nat.ltb_spec (index a + h) (length txt)) as [Hah | Hah],
           (Nat.ltb_spec (index b + h) (length txt)) as [Hbh | Hbh].
  - apply (HR _ _ Hah Hbh).
  - destruct (Hfull _ Hah) as (x & r & ->). rewrite Hempty by lia.
    cbn [lex_compare]. apply Z.compare_gt_iff.
    specialize (Hnonneg _ Hah). lia.
  - destruct (Hfull _ Hbh) as (x & r & ->). rewrite Hempty by lia.
    cbn [lex_compare]. apply Z.compare_lt_iff.
    specialize (Hnonneg _ Hbh). lia.
  - by rewrite !Hempty by lia.
Qed.

(** [qsort] keeps the offsets and the pairs, and orders the array. *)
Lemma qsort_inv (h : nat) (l : list Suffix) :
  index <$> l ≡ₚ seq 0 (length txt) → keyed txt h l →
  sa_inv txt h (qsort cmpSuffix l).
Proof.
  intros Hperm Hkeyed. split.
  - by rewrite (qsort_permutation _ cmpSuffix l).
  - intros a b Ha Hb. apply Hkeyed.
    + by rewrite <- (qsort_permutation _ cmpSuffix l).
    + by rewrite <- (qsort_permutation _ cmpSuffix l).
  - apply qsort_sorted, cmpSuffix_comparator.
Qed.

(** *** The seed *)

Lemma init_suffixes_index (n : nat) :
  index <$> init_suffixes txt n = seq 0 n.
Proof.
  unfold init_suffixes. rewrite <- list_fmap_compose.
  apply list_fmap_id.
Qed.

Lemma pre_one (i : nat) :
  i < length txt → pre txt 1 i = [nth i txt NUL].
Proof.
  intros Hi. unfold pre.
  destruct (lookup_lt_is_Some_2 txt i Hi) as [x Hx].
  by rewrite (drop_S _ _ _ Hx), (nth_lookup_Some _ _ _ _ Hx).
Qed.

Lemma char_to_int_nonneg (c : ascii) :
  (0 ≤ char_to_int c)%Z → char_to_int c = ordinal c.
Proof.
  unfold char_to_int. pose proof (ordinal_range c).
  destruct char_is_signed, (Z.leb_spec 128 (ordinal c)); simpl; lia.
Qed.

Lemma nonneg_chars_nth (i : nat) :
  nonneg_chars txt → i < length txt →
  char_to_int (nth i txt NUL) = ordinal (nth i txt NUL).
Proof.
  intros Hnn Hi. apply char_to_int_nonneg.
  destruct (lookup_lt_is_Some_2 txt i Hi) as [x Hx].
  rewrite (nth_lookup_Some _ _ _ _ Hx).
  unfold nonneg_chars in Hnn. rewrite Forall_forall in Hnn.
  apply Hnn. by apply list_elem_of_lookup_2 with i.
Qed.

Lemma seed_inv :
  nonneg_chars txt → sa_inv txt 2 (seed_sorted txt (length txt)).
Proof.
  intros Hnn. apply qsort_inv.
  - by rewrite init_suffixes_index.
  - apply (pair_keyed (λ i, ordinal (nth i txt NUL)) 1); [lia | | |].
    + intros i _. apply ordinal_range.
    + intros i j Hi Hj. rewrite !pre_one by done. simpl.
      by destruct (ordinal (nth i txt NUL) ?= ordinal (nth j txt NUL))%Z.
    + intros a [i [-> Hi]]%list_elem_of_fmap.
      apply elem_of_seq in Hi. simpl.
      split; [lia |]. split; [apply nonneg_chars_nth; [done | lia] |].
      destruct (Nat.ltb_spec (i + 1) (length txt)); [| done].
      by apply nonneg_chars_nth.
Qed.
(** *** One iteration *)

(** After the re-ranking pass, [rank[0]] alone stands for the first [h]
    bytes. *)
Lemma rerank_ranked (h : nat) (sufs : list Suffix) (a b : Suffix) :
  sa_inv txt h sufs → a ∈ rerank sufs → b ∈ rerank sufs →
  (rank0 a ?= rank0 b)%Z
  = lex_compare (pre txt h (index a)) (pre txt h (index b)).
Proof.
  intros [_ Hkeyed Hsorted] [i Ha]%list_elem_of_lookup_1
    [j Hb]%list_elem_of_lookup_1.
  assert (Hold : ∀ p c, rerank sufs !! p = Some c →
            ∃ s, sufs !! p = Some s ∧ index s = index c).
  { intros p c Hc.
    assert (Hic : (index <$> sufs) !! p = Some (index c))
      by (by rewrite <- rerank_index, list_lookup_fmap, Hc).
    rewrite list_lookup_fmap in Hic.
    destruct (sufs !! p) as [s |]; [| done].
    exists s. split; [done |]. by injection Hic. }
  destruct (Hold i a Ha) as (s & Hs & <-).
  destruct (Hold j b Hb) as (t & Ht & <-).
  rewrite (rerank_pairwise sufs i j s t a b) by done.
  apply Hkeyed; by eapply list_elem_of_lookup_2.
Qed.

(** Reading [suffixes[ind[i]]] finds the suffix of offset [i]. *)
Lemma ind_read_elem (o : list Suffix) (a : Suffix) :
  index <$> o ≡ₚ seq 0 (length txt) → a ∈ o →
  nth (nth (index a) (fill_ind (length txt) o) 0) o dummy_suffix = a.
Proof.
  intros Hperm [p Ha]%list_elem_of_lookup_1.
  unfold fill_ind.
  rewrite (inverse_lookup (index <$> o) (length txt) p (index a));
    [by apply nth_lookup_Some | done |].
  by rewrite list_lookup_fmap, Ha.
Qed.

Lemma ind_read_offset (o : list Suffix) (i : nat) :
  index <$> o ≡ₚ seq 0 (length txt) → i < length txt →
  ∃ c, c ∈ o ∧ index c = i ∧
       nth (nth i (fill_ind (length txt) o) 0) o dummy_suffix = c.
Proof.
  intros Hperm Hi.
  destruct (perm_seq_position _ _ i Hperm Hi) as (p & _ & Hp).
  rewrite list_lookup_fmap in Hp.
  destruct (o !! p) as [c |] eqn:Hc; [| done].
  injection Hp as Hic. exists c.
  assert (Hin : c ∈ o) by (by apply list_elem_of_lookup_2 with p).
  split; [done |]. split; [done |].
  rewrite <- Hic. by apply ind_read_elem.
Qed.

Lemma next_rank_index (k n : nat) (ind : list nat) (o : list Suffix) :
  index <$> next_rank k n ind o = index <$> o.
Proof. unfold next_rank. by rewrite <- list_fmap_compose. Qed.

Lemma half_double (h : nat) : (h + h) / 2 = h.
Proof.
  replace (h + h) with (h * 2) by lia. apply Nat.div_mul. lia.
Qed.

Lemma doubling_step_inv (h : nat) (sufs : list Suffix) :
  0 < h → sa_inv txt h sufs →
  sa_inv txt (h + h) (doubling_step (h + h) (length txt) sufs).
Proof.
  intros Hh Hinv. pose proof Hinv as [Hperm Hkeyed Hsorted].
  unfold doubling_step. cbn zeta.
  assert (Hperm' : index <$> rerank sufs ≡ₚ seq 0 (length txt))
    by (by rewrite rerank_index).
  apply qsort_inv; [by rewrite next_rank_index |].
  set (o := rerank sufs) in *.
  apply (pair_keyed
           (λ i, rank0 (nth (nth i (fill_ind (length txt) o) 0) o
                          dummy_suffix)) h); [done | | |]; cbn beta.
  - intros i Hi.
    destruct (ind_read_offset o i Hperm' Hi) as (c & Hc & _ & ->).
    by apply (rerank_nonneg sufs).
  - intros i j Hi Hj.
    destruct (ind_read_offset o i Hperm' Hi) as (c & Hc & <- & ->).
    destruct (ind_read_offset o j Hperm' Hj) as (d & Hd & <- & ->).
    by apply (rerank_ranked h sufs).
  - intros a [a' [-> Ha']]%list_elem_of_fmap. cbn [index rank0 rank1].
    rewrite half_double. split; [| split; [| done]].
    + apply (perm_seq_elem _ _ _ Hperm').
      apply list_elem_of_fmap. by exists a'.
    + by rewrite ind_read_elem.
Qed.

(** *** The loop *)

Lemma doubling_loop_S (fuel k n : nat) (sufs : list Suffix) :
  doubling_loop (S fuel) k n sufs
  = if k <? 2 * n
    then doubling_loop fuel (2 * k) n (doubling_step k n sufs)
    else sufs.
Proof. done. Qed.

Lemma doubling_loop_inv (fuel : nat) :
  ∀ (h : nat) (sufs : list Suffix),
    0 < h → sa_inv txt h sufs → 2 * length txt ≤ 2 ^ fuel * (2 * h) →
    ∃ h', length txt ≤ h' ∧
          sa_inv txt h' (doubling_loop fuel (2 * h) (length txt) sufs).
Proof.
  induction fuel as [| fuel IH]; intros h sufs Hh Hinv Hfuel.
  - exists h. simpl in *. split; [lia | done].
  - rewrite doubling_loop_S.
    destruct (Nat.ltb_spec (2 * h) (2 * length txt)) as [Hlt | Hge].
    + replace (2 * h) with (h + h) by lia.
      destruct (IH (h + h) (doubling_step (h + h) (length txt) sufs))
        as (h' & Hh' & Hinv').
      * lia.
      * by apply doubling_step_inv.
      * rewrite Nat.pow_succ_r' in Hfuel. lia.
      * by exists h'.
    + exists h. split; [lia | done].
Qed.

Lemma pow2_gt (n : nat) : n < 2 ^ n.
Proof. apply Nat.pow_gt_lin_r. lia. Qed.

(** The array the loop ends with is ordered by the whole suffixes. *)
Lemma final_inv :
  nonneg_chars txt →
  ∃ h, length txt ≤ h ∧
       sa_inv txt h (doubling_loop (length txt) 4 (length txt)
                   (seed_sorted txt (length txt))).
Proof.
  intros Hnn.
  apply (doubling_loop_inv (length txt) 2); [lia | by apply seed_inv |].
  pose proof (pow2_gt (length txt)). lia.
Qed.

Lemma pre_ge (h i : nat) : length txt ≤ h → pre txt h i = drop i txt.
Proof. intros Hh. unfold pre. apply take_ge. rewrite length_drop. lia. Qed.

Lemma sa_inv_sorted_sa (h : nat) (sufs : list Suffix) :
  length txt ≤ h → sa_inv txt h sufs → sorted_sa txt (index <$> sufs).
Proof.
  intros Hh [_ Hkeyed Hsorted] p i j Hi Hj.
  rewrite list_lookup_fmap in Hi, Hj.
  destruct (sufs !! p) as [a |] eqn:Ha; [| done].
  destruct (sufs !! S p) as [b |] eqn:Hb; [| done].
  injection Hi as <-. injection Hj as <-.
  unfold lex_le. rewrite <- !(pre_ge h) by done.
  rewrite <- Hkeyed by (by eapply list_elem_of_lookup_2).
  apply cmpSuffix_le_key.
  apply (StronglySorted_lookup_lt (λ a b, (cmpSuffix a b ≤ 0)%Z)
           sufs p (S p)); [done .. | lia].
Qed.

(** On text whose bytes read non-negative, [buildSuffixArray] returns a
    valid suffix array. *)
Lemma buildSuffixArray_valid :
  nonneg_chars txt → valid_sa txt (buildSuffixArray txt (length txt)).
Proof.
  intros Hnn. destruct (final_inv Hnn) as (h & Hh & Hinv).
  split; [apply Hinv | by apply sa_inv_sorted_sa with h].
Qed.
End Doubling.

(** ** The offsets are only ever permuted *)

Section Offsets.
Context `{CImpl}.

Lemma doubling_step_index (k n : nat) (sufs : list Suffix) :
  index <$> doubling_step k n sufs ≡ₚ index <$> sufs.
Proof.
  unfold doubling_step. cbn zeta.
  by rewrite (qsort_permutation _ cmpSuffix), next_rank_index, rerank_index.
Qed.

Lemma doubling_loop_index (fuel : nat) :
  ∀ (k n : nat) (sufs : list Suffix),
    index <$> doubling_loop fuel k n sufs ≡ₚ index <$> sufs.
Proof.
  induction fuel as [| fuel IH]; intros k n sufs; [done |].
  rewrite doubling_loop_S. destruct (k <? 2 * n); [| done].
  by rewrite IH, doubling_step_index.
Qed.

Lemma buildSuffixArray_perm (txt : list ascii) (n : nat) :
  buildSuffixArray txt n ≡ₚ seq 0 n.
Proof.
  unfold buildSuffixArray, seed_sorted.
  by rewrite doubling_loop_index, (qsort_permutation _ cmpSuffix),
    init_suffixes_index.
Qed.

(** *** The states of the loop *)

Lemma state_before_inv (txt : list ascii) (j : nat) :
  nonneg_chars txt →
  sa_inv txt (2 * 2 ^ j) (state_before j txt (length txt)).
Proof.
  intros Hnn. induction j as [| j IH]; [by apply seed_inv |].
  cbn [state_before].
  replace (4 * 2 ^ j) with (2 * 2 ^ j + 2 * 2 ^ j) by lia.
  replace (2 * 2 ^ S j) with (2 * 2 ^ j + 2 * 2 ^ j)
    by (rewrite Nat.pow_succ_r'; lia).
  apply doubling_step_inv; [| done].
  pose proof (pow2_gt j). lia.
Qed.

(** The loop leaves by its condition: it runs the iterations
    [j = 0 .. J - 1], those with [4 * 2 ^ j < 2 * n], and no other. *)
Lemma doubling_loop_states (txt : list ascii) (n fuel : nat) :
  ∀ j, 2 * n ≤ 2 ^ fuel * (4 * 2 ^ j) →
    ∃ J, (∀ j', j ≤ j' → j' < J → 4 * 2 ^ j' < 2 * n) ∧
         ¬ 4 * 2 ^ J < 2 * n ∧
         doubling_loop fuel (4 * 2 ^ j) n (state_before j txt n)
         = state_before J txt n.
Proof.
  induction fuel as [| fuel IH]; intros j Hfuel.
  - exists j. simpl in Hfuel. split; [lia | split; [lia | done]].
  - rewrite doubling_loop_S.
    destruct (Nat.ltb_spec (4 * 2 ^ j) (2 * n)) as [Hlt | Hge].
    + destruct (IH (S j)) as (J & Hbefore & Hexit & Heq).
      { rewrite Nat.pow_succ_r' in Hfuel |- *. lia. }
      exists J. split; [| split; [done |]].
      * intros j' Hj' HJ.
        destruct (decide (j' = j)) as [-> | Hne]; [done |].
        apply Hbefore; lia.
      * rewrite <- Heq. cbn [state_before]. f_equal.
        rewrite Nat.pow_succ_r'. lia.
    + exists j. split; [lia | split; [lia | done]].
Qed.

Lemma buildSuffixArray_states (txt : list ascii) (n : nat) :
  ∃ J, (∀ j, j < J → 4 * 2 ^ j < 2 * n) ∧
       ¬ 4 * 2 ^ J < 2 * n ∧
       buildSuffixArray txt n = index <$> state_before J txt n.
Proof.
  destruct (doubling_loop_states txt n n 0) as (J & Hbefore & Hexit & Heq).
  { pose proof (pow2_gt n). simpl. lia. }
  exists J. split; [intros j Hj; apply Hbefore; lia | split; [done |]].
  unfold buildSuffixArray. by rewrite <- Heq.
Qed.

(** *** What [rank[0]] tells apart *)

Lemma pre_min (txt : list ascii) (h i : nat) :
  pre txt (h `min` length txt) i = pre txt h i.
Proof.
  unfold pre.
  rewrite <- (take_ge (drop i txt) (length txt)) at 2
    by (rewrite length_drop; lia).
  by rewrite take_take.
Qed.

Lemma rerank_classifies (txt : list ascii) (h : nat) (sufs : list Suffix) :
  sa_inv txt h sufs → rank0_classifies txt h (rerank sufs).
Proof.
  intros Hinv a b Ha Hb. rewrite !pre_min.
  pose proof (rerank_ranked txt h sufs a b Hinv Ha Hb) as Hcmp.
  split.
  - intros Heq. apply lex_compare_eq.
    rewrite <- Hcmp. by apply Z.compare_eq_iff.
  - intros Heq. apply Z.compare_eq_iff.
    rewrite Hcmp, Heq. apply lex_compare_refl.
Qed.

Lemma seed_classifies (txt : list ascii) :
  nonneg_chars txt →
  rank0_classifies txt 1 (seed_sorted txt (length txt)).
Proof.
  intros Hnn a b Ha Hb. rewrite !pre_min.
  assert (Hinit : ∀ c, c ∈ seed_sorted txt (length txt) →
            index c < length txt ∧
            rank0 c = ordinal (nth (index c) txt NUL)).
  { intros c Hc. unfold seed_sorted in Hc.
    rewrite (qsort_permutation _ cmpSuffix) in Hc.
    apply list_elem_of_fmap in Hc as [i [-> Hi]].
    apply elem_of_seq in Hi. simpl.
    split; [lia |]. apply nonneg_chars_nth; [done | lia]. }
  destruct (Hinit a Ha) as [Hia ->], (Hinit b Hb) as [Hib ->].
  rewrite !pre_one by done.
  split; [intros Heq; f_equal; by apply ordinal_inj | by intros [= ->]].
Qed.
End Offsets.

(** ** Kasai's algorithm *)

(** The common prefix is longer than [k] exactly when both strings have
    the same byte at position [k]. *)
Lemma lcp_len_extend (a b : list ascii) (k : nat) :
  k ≤ lcp_len a b →
  k < lcp_len a b ↔ ∃ x, a !! k = Some x ∧ b !! k = Some x.
Proof.
  revert a b. induction k as [| k IH]; intros a b Hk.
  - destruct a as [| x a], b as [| y b]; simpl;
      try (split; [lia | by intros (z & ? & ?)]).
    destruct (Ascii.eqb_spec x y) as [-> | Hne].
    + split; [by exists y | lia].
    + split; [lia | intros (z & [= ->] & [= ->]); done].
  - destruct (lcp_len_pos a b) as (x & a' & b' & -> & -> & Hl); [lia |].
    rewrite Hl in Hk |- *. simpl.
    rewrite <- (IH a' b') by lia. lia.
Qed.

Lemma lcp_len_le_l (a b : list ascii) : lcp_len a b ≤ length a.
Proof.
  revert b. induction a as [| x a IH]; intros [| y b]; simpl; try lia.
  destruct (Ascii.eqb x y); [| lia]. specialize (IH b). lia.
Qed.

(** The [while] loop, started below the true length with fuel for the
    rest of the text, stops at the true length. *)
Lemma extend_lcp_len (txt : list ascii) (i j : nat) (fuel : nat) :
  ∀ k, k ≤ lcp_len (drop i txt) (drop j txt) →
    length txt ≤ fuel + (i + k) →
    extend fuel txt (length txt) i j k
    = lcp_len (drop i txt) (drop j txt).
Proof.
  assert (Htest : ∀ k,
    (i + k <? length txt) && (j + k <? length txt)
      && Ascii.eqb (nth (i + k) txt NUL) (nth (j + k) txt NUL) = true
    ↔ ∃ x, drop i txt !! k = Some x ∧ drop j txt !! k = Some x).
  { intros k. rewrite !lookup_drop, !andb_true_iff, !Nat.ltb_lt, Ascii.eqb_eq.
    split.
    - intros [[Hi Hj] Heq].
      destruct (lookup_lt_is_Some_2 txt (i + k) Hi) as [x Hx].
      destruct (lookup_lt_is_Some_2 txt (j + k) Hj) as [y Hy].
      rewrite (nth_lookup_Some _ _ _ _ Hx), (nth_lookup_Some _ _ _ _ Hy) in Heq.
      exists x. by rewrite Hx, Hy, Heq.
    - intros (x & Hx & Hy).
      rewrite (nth_lookup_Some _ _ _ _ Hx), (nth_lookup_Some _ _ _ _ Hy).
      apply lookup_lt_Some in Hx, Hy. done. }
  induction fuel as [| fuel IH]; intros k Hk Hfuel; simpl.
  - destruct (decide (k < lcp_len (drop i txt) (drop j txt))) as [Hlt | ?];
      [| lia].
    pose proof (lcp_len_le_l (drop i txt) (drop j txt)) as Hlen.
    rewrite length_drop in Hlen. lia.
  - destruct ((i + k <? length txt) && (j + k <? length txt)
              && Ascii.eqb (nth (i + k) txt NUL) (nth (j + k) txt NUL))
      eqn:Htst.
    + apply (proj1 (Htest k)), (proj2 (lcp_len_extend _ _ k Hk)) in Htst.
      apply IH; lia.
    + destruct (decide (k < lcp_len (drop i txt) (drop j txt))) as [Hlt | ?];
        [| lia].
      apply (proj1 (lcp_len_extend _ _ k Hk)), (proj2 (Htest k)) in Hlt.
      congruence.
Qed.

Section Kasai.
Variable txt : list ascii.
Variable SA : list nat.
Hypothesis Hvalid : valid_sa txt SA.

#[local] Abbreviation n := (length txt).
#[local] Abbreviation rank :=
  (store_positions SA 0 (replicate (length txt) 0)).

Lemma rank_SA (p i : nat) : SA !! p = Some i → nth i rank 0 = p.
Proof. apply inverse_lookup, Hvalid. Qed.

Lemma SA_rank (i : nat) :
  i < n → nth i rank 0 < n ∧ SA !! nth i rank 0 = Some i.
Proof.
  intros Hi. destruct Hvalid as [Hperm _].
  destruct (perm_seq_position SA n i Hperm Hi) as (p & Hp & HSA).
  by rewrite (rank_SA p i HSA).
Qed.

Lemma SA_lookup (p : nat) :
  p < n → ∃ i, i < n ∧ SA !! p = Some i ∧ nth p SA 0 = i.
Proof.
  intros Hp. destruct Hvalid as [Hperm _].
  destruct (lookup_lt_is_Some_2 SA p) as [i Hi];
    [by rewrite (perm_seq_length SA n Hperm) |].
  exists i. split; [by apply (perm_seq_lookup_lt SA n p) |].
  split; [done | by apply nth_lookup_Some].
Qed.

(** Sortedness of neighbours extends to any two positions. *)
Lemma sorted_sa_le (p q i j : nat) :
  SA !! p = Some i → SA !! q = Some j → p ≤ q →
  lex_le (drop i txt) (drop j txt).
Proof.
  intros Hi. revert j. induction q as [| q IH]; intros j Hj Hpq.
  - assert (p = 0) as -> by lia.
    rewrite Hi in Hj. injection Hj as ->. apply lex_le_refl.
  - destruct (decide (p = S q)) as [-> | Hne].
    + rewrite Hi in Hj. injection Hj as ->. apply lex_le_refl.
    + destruct (lookup_lt_is_Some_2 SA q) as [j' Hj'];
        [apply lookup_lt_Some in Hj; lia |].
      apply lex_le_trans with (drop j' txt); [apply IH; [done | lia] |].
      destruct Hvalid as [_ Hsorted]. by apply (Hsorted q).
Qed.

Lemma drop_inj (i j : nat) :
  i ≤ n → j ≤ n → drop i txt = drop j txt → i = j.
Proof.
  intros Hi Hj Heq. apply (f_equal length) in Heq.
  rewrite !length_drop in Heq. lia.
Qed.

(** A strictly smaller suffix stands at a smaller position. *)
Lemma rank_lt (i j : nat) :
  i < n → j < n → i ≠ j → lex_le (drop i txt) (drop j txt) →
  nth i rank 0 < nth j rank 0.
Proof.
  intros Hi Hj Hne Hle.
  destruct (SA_rank i Hi) as [_ Hri], (SA_rank j Hj) as [_ Hrj].
  destruct (decide (nth i rank 0 < nth j rank 0)) as [| Hge]; [done |].
  exfalso. apply Hne. apply drop_inj; [lia | lia |].
  apply lex_le_antisym; [done |].
  apply (sorted_sa_le (nth j rank 0) (nth i rank 0)); [done | done | lia].
Qed.

(** The amortisation step: dropping the first byte of a suffix lowers
    the common prefix with its successor by at most one. *)
Lemma kasai_carry (i : nat) :
  S i < n → nth i rank 0 ≠ n - 1 → nth (S i) rank 0 ≠ n - 1 →
  pred (lcp_at txt SA (nth i rank 0)) ≤ lcp_at txt SA (nth (S i) rank 0).
Proof.
  intros Hi Hr Hr'.
  destruct (SA_rank i) as [Hrn Hri]; [lia |].
  destruct (SA_rank (S i) Hi) as [Hrn' Hri'].
  destruct (SA_lookup (S (nth i rank 0))) as (j & Hj & HSAj & Hnj); [lia |].
  destruct (SA_lookup (S (nth (S i) rank 0))) as (j' & Hj' & HSAj' & Hnj');
    [lia |].
  unfold lcp_at.
  rewrite (nth_lookup_Some _ _ 0 _ Hri), (nth_lookup_Some _ _ 0 _ Hri'),
    Hnj, Hnj'.
  destruct (decide (0 < lcp_len (drop i txt) (drop j txt))) as [Hpos | ?];
    [| lia].
  destruct (lcp_len_pos _ _ Hpos) as (x & a & b & Ha & Hb & ->). simpl.
  assert (Hij : lex_le (drop i txt) (drop j txt))
    by (apply (sorted_sa_le (nth i rank 0) (S (nth i rank 0))); done || lia).
  assert (Hne : i ≠ j).
  { intros ->. pose proof (NoDup_lookup SA _ _ j
      (perm_seq_NoDup SA n (proj1 Hvalid)) Hri HSAj). lia. }
  destruct (lookup_lt_is_Some_2 txt i) as [xi Hxi]; [lia |].
  destruct (lookup_lt_is_Some_2 txt j) as [xj Hxj]; [done |].
  rewrite (drop_S _ _ _ Hxi) in Ha, Hij.
  rewrite (drop_S _ _ _ Hxj) in Hb, Hij.
  injection Ha as -> <-. injection Hb as -> <-.
  unfold lex_le in Hij. simpl in Hij. rewrite Z.compare_refl in Hij.
  assert (Hj1 : S j < n).
  { destruct (decide (S j < n)) as [| Hge]; [done |]. exfalso.
    rewrite (drop_ge txt (S j)) in Hij by lia.
    destruct (lookup_lt_is_Some_2 txt (S i) Hi) as [y Hy].
    by rewrite (drop_S _ _ _ Hy) in Hij. }
  assert (Hlt : nth (S i) rank 0 < nth (S j) rank 0)
    by (apply rank_lt; done || lia).
  destruct (SA_rank (S j) Hj1) as [_ Hrj1].
  apply lcp_len_sandwich.
  - apply (sorted_sa_le (nth (S i) rank 0) (S (nth (S i) rank 0)));
      done || lia.
  - apply (sorted_sa_le (S (nth (S i) rank 0)) (nth (S j) rank 0));
      done || lia.
Qed.

Lemma kasai_state_S (i : nat) :
  kasai_state txt SA (S i) = kasai_step txt n SA rank (kasai_state txt SA i) i.
Proof. unfold kasai_state. by rewrite seq_S, foldl_app. Qed.

Lemma kasai_inv_step (i : nat) (st : nat * list (option nat)) :
  i < n → kasai_inv txt SA i st →
  kasai_inv txt SA (S i) (kasai_step txt n SA rank st i).
Proof.
  intros Hi [Hlen Hcells Hk]. destruct st as [k lcp]. simpl in *.
  destruct (SA_rank i Hi) as [Hrn Hri].
  unfold kasai_step.
  destruct (Nat.eqb_spec (nth i rank 0) (n - 1)) as [Hlast | Hnot].
  - split; simpl; [done | | lia].
    intros p x Hp. rewrite (Hcells p x Hp).
    repeat case_decide; try done; exfalso; [lia |].
    assert (x = i) as -> by lia.
    pose proof (rank_SA p i Hp). lia.
  - specialize (Hk Hi Hnot).
    assert (Hext : extend n txt n i (nth (nth i rank 0 + 1) SA 0) k
                   = lcp_at txt SA (nth i rank 0)).
    { unfold lcp_at in *.
      rewrite (nth_lookup_Some _ _ 0 _ Hri) in Hk |- *.
      rewrite Nat.add_1_r. apply extend_lcp_len; [done | lia]. }
    rewrite Hext. split; simpl.
    + by rewrite length_insert.
    + intros p x Hp.
      destruct (decide (p = nth i rank 0)) as [-> | Hne].
      * rewrite Hri in Hp. injection Hp as <-.
        rewrite list_lookup_insert_eq by lia.
        rewrite decide_True; [done | lia].
      * rewrite list_lookup_insert_ne by done.
        rewrite (Hcells p x Hp).
        assert (x ≠ i) by (intros ->; by pose proof (rank_SA p i Hp)).
        repeat case_decide; try done; lia.
    + intros Hi' Hr'. by apply kasai_carry.
Qed.

Lemma kasai_inv_state (i : nat) :
  i ≤ n → kasai_inv txt SA i (kasai_state txt SA i).
Proof.
  induction i as [| i IH]; intros Hi.
  - split; simpl; [apply length_replicate | | lia].
    intros p x Hp. rewrite lookup_replicate_2.
    + done.
    + apply lookup_lt_Some in Hp.
      by rewrite (perm_seq_length SA n (proj1 Hvalid)) in Hp.
  - rewrite kasai_state_S. apply kasai_inv_step; [lia | apply IH; lia].
Qed.

Lemma buildLCPArray_state : buildLCPArray txt n SA = (kasai_state txt SA n).2.
Proof. done. Qed.

Lemma buildLCPArray_length : length (buildLCPArray txt n SA) = n.
Proof. rewrite buildLCPArray_state. by apply kasai_inv_state. Qed.

Lemma buildLCPArray_cell (p : nat) :
  p < n →
  buildLCPArray txt n SA !! p
  = Some (if decide (p ≠ n - 1) then Some (lcp_at txt SA p) else None).
Proof.
  intros Hp. destruct (SA_lookup p Hp) as (x & Hx & HSA & _).
  rewrite buildLCPArray_state.
  rewrite (kasai_cells txt SA n _ (kasai_inv_state n (Nat.le_refl n)) p x HSA).
  f_equal. repeat case_decide; try done; lia.
Qed.
End Kasai.

(** ** [strncmp] and the binary search *)

(** Against a pattern without NUL, bounded at the pattern's length,
    [strncmp] has the sign of the lexicographic comparison with the first
    bytes of the other string. *)
Lemma strncmp_lex (pat s : list ascii) :
  NUL ∉ pat →
  (strncmp pat s (length pat) ?= 0)%Z
  = lex_compare pat (take (length pat) s).
Proof.
  revert s. induction pat as [| x pat IH]; intros s Hnul.
  - by rewrite take_0.
  - apply not_elem_of_cons in Hnul as [Hx Hnul].
    assert (Hx0 : ordinal x ≠ 0%Z) by (intros Hx0%ordinal_NUL; congruence).
    pose proof (ordinal_range x) as Hrx.
    destruct s as [| y s]; cbn [strncmp length hd tl take lex_compare].
    + change (ordinal NUL) with 0%Z.
      destruct (Z.eqb_spec (ordinal x) 0); [done |].
      apply Z.compare_gt_iff. lia.
    + destruct (Z.eqb_spec (ordinal x) (ordinal y)) as [Heq | Hne].
      * rewrite Heq, Z.compare_refl.
        destruct (Z.eqb_spec (ordinal y) 0); [lia |]. by apply IH.
      * destruct (Z.compare_spec (ordinal x) (ordinal y));
          destruct (Z.compare_spec (ordinal x - ordinal y) 0); done || lia.
Qed.

Lemma strncmp_zero (pat s : list ascii) :
  NUL ∉ pat →
  strncmp pat s (length pat) = 0%Z ↔ take (length pat) s = pat.
Proof.
  intros Hnul. rewrite <- Z.compare_eq_iff, (strncmp_lex pat s Hnul).
  split; [intros Heq; symmetry; by apply lex_compare_eq |].
  intros ->. apply lex_compare_refl.
Qed.

Section Search.
Variable txt : list ascii.
Variable SA : list nat.
Variable pat : list ascii.
Hypothesis Hvalid : valid_sa txt SA.
Hypothesis Hpat : NUL ∉ pat.

(** Along the suffix array the comparison result can only fall. *)
Lemma res_at_mono (p q : nat) :
  p ≤ q → q < length txt →
  ((res_at txt SA pat p < 0 → res_at txt SA pat q < 0) ∧
   (0 < res_at txt SA pat q → 0 < res_at txt SA pat p))%Z.
Proof.
  intros Hpq Hq.
  destruct (SA_lookup txt SA Hvalid p) as (i & _ & Hi & Hni); [lia |].
  destruct (SA_lookup txt SA Hvalid q Hq) as (j & _ & Hj & Hnj).
  pose proof (lex_le_take (length pat) _ _
                (sorted_sa_le txt SA Hvalid p q i j Hi Hj Hpq)) as Hle.
  unfold res_at. rewrite Hni, Hnj.
  pose proof (strncmp_lex pat (drop i txt) Hpat) as HP.
  pose proof (strncmp_lex pat (drop j txt) Hpat) as HQ.
  set (P := take (length pat) (drop i txt)) in *.
  set (Q := take (length pat) (drop j txt)) in *.
  assert (Hlt : lex_compare pat P = Lt → lex_compare pat Q = Lt).
  { intros Hlt.
    assert (HpQ : lex_le pat Q)
      by (apply lex_le_trans with P; [unfold lex_le; congruence | done]).
    unfold lex_le in HpQ.
    destruct (lex_compare pat Q) eqn:Hc; try done.
    apply lex_compare_eq in Hc. rewrite Hc in Hlt.
    assert (HQP : Q = P)
      by (apply lex_le_antisym; [unfold lex_le; congruence | done]).
    by rewrite HQP, lex_compare_refl in Hlt. }
  assert (Hgt : lex_compare pat Q = Gt → lex_compare pat P = Gt).
  { intros Hgt. destruct (lex_compare pat P) eqn:Hc; try done; exfalso;
      (assert (HpQ : lex_le pat Q)
         by (apply lex_le_trans with P; [unfold lex_le; congruence | done]));
      unfold lex_le in HpQ; congruence. }
  destruct (Z.compare_spec (strncmp pat (drop i txt) (length pat)) 0),
           (Z.compare_spec (strncmp pat (drop j txt) (length pat)) 0);
    split; intros; try lia;
    first [ specialize (Hlt (eq_sym HP)) | specialize (Hgt (eq_sym HQ)) ];
    congruence.
Qed.

Lemma mid_bounds (low high : Z) :
  (0 ≤ low → low ≤ high →
   low ≤ (low + high) ÷ 2 ≤ high)%Z.
Proof.
  intros Hlow Hle. rewrite Z.quot_div_nonneg by lia.
  split; [apply Z.div_le_lower_bound | apply Z.div_le_upper_bound]; lia.
Qed.

(** A non-negative result is the offset stored at a probed position
    whose comparison gave 0. *)
Lemma search_loop_sound (fuel : nat) :
  ∀ low high : Z,
    (0 ≤ low)%Z → (high < Z.of_nat (length txt))%Z →
    search_loop fuel txt SA pat (length pat) low high = (-1)%Z ∨
    ∃ p, p < length txt ∧ res_at txt SA pat p = 0%Z ∧
         search_loop fuel txt SA pat (length pat) low high
         = Z.of_nat (nth p SA 0).
Proof.
  induction fuel as [| fuel IH]; intros low high Hlow Hhigh; [by left |].
  cbn [search_loop].
  destruct (Z.leb_spec low high) as [Hle | Hgt]; [| by left].
  pose proof (mid_bounds low high Hlow Hle) as Hmid. cbn zeta.
  set (mid := ((low + high) ÷ 2)%Z) in *.
  destruct (Z.eqb_spec (strncmp pat (drop (nth (Z.to_nat mid) SA 0) txt)
                          (length pat)) 0) as [Hres | Hres].
  - right. exists (Z.to_nat mid). split; [lia | done].
  - destruct (_ <? 0)%Z; apply IH; lia.
Qed.

(** With a match in range and fuel for the range, the search returns an
    offset. *)
Lemma search_loop_complete (fuel : nat) :
  ∀ (low high : Z) (p : nat),
    (0 ≤ low)%Z → (high < Z.of_nat (length txt))%Z →
    (high - low + 1 ≤ Z.of_nat fuel)%Z →
    (low ≤ Z.of_nat p ≤ high)%Z → res_at txt SA pat p = 0%Z →
    (0 ≤ search_loop fuel txt SA pat (length pat) low high)%Z.
Proof.
  induction fuel as [| fuel IH]; intros low high p Hlow Hhigh Hfuel Hp Hres;
    [lia |].
  cbn [search_loop].
  destruct (Z.leb_spec low high) as [Hle | Hgt]; [| lia].
  pose proof (mid_bounds low high Hlow Hle) as Hmid. cbn zeta.
  set (mid := ((low + high) ÷ 2)%Z) in *.
  fold (res_at txt SA pat (Z.to_nat mid)).
  destruct (Z.eqb_spec (res_at txt SA pat (Z.to_nat mid)) 0) as [Hm | Hm];
    [lia |].
  destruct (Z.ltb_spec (res_at txt SA pat (Z.to_nat mid)) 0) as [Hneg | Hpos].
  - apply (IH _ _ p); try lia.
    destruct (decide (Z.of_nat p < mid)%Z) as [| Hge]; [lia |].
    destruct (res_at_mono (Z.to_nat mid) p) as [Hmono _]; lia.
  - apply (IH _ _ p); try lia.
    destruct (decide (mid < Z.of_nat p)%Z) as [| Hge]; [lia |].
    destruct (res_at_mono p (Z.to_nat mid)) as [_ Hmono]; lia.
Qed.

Lemma searchPattern_sound (o : nat) :
  searchPattern txt SA (length txt) pat = Z.of_nat o →
  o + length pat ≤ length txt ∧ take (length pat) (drop o txt) = pat.
Proof.
  unfold searchPattern. cbn zeta. intros Hret.
  destruct (search_loop_sound (S (length txt)) 0 (Z.of_nat (length txt) - 1))
    as [Hnone | (p & Hp & Hres & Hsome)]; [lia | lia | lia |].
  destruct (SA_lookup txt SA Hvalid p Hp) as (i & Hi & _ & Hni).
  assert (o = i) as -> by lia.
  unfold res_at in Hres. rewrite Hni in Hres.
  apply strncmp_zero in Hres; [| done].
  split; [| done].
  apply (f_equal length) in Hres.
  rewrite length_take, length_drop in Hres. lia.
Qed.

Lemma searchPattern_complete (o : nat) :
  o < length txt → take (length pat) (drop o txt) = pat →
  (0 ≤ searchPattern txt SA (length txt) pat)%Z.
Proof.
  intros Ho Hocc. unfold searchPattern. cbn zeta.
  destruct (SA_rank txt SA Hvalid o Ho) as [Hr HSA].
  set (p := nth o (store_positions SA 0 (replicate (length txt) 0)) 0) in *.
  apply (search_loop_complete _ _ _ p); try lia.
  unfold res_at. rewrite (nth_lookup_Some _ _ 0 _ HSA).
  by apply strncmp_zero.
Qed.
End Search.

(** More fuel than the range needs changes nothing: the loop ends by its
    own condition. *)
Lemma search_loop_fuel (txt : list ascii) (SA : list nat) (pat : list ascii)
    (m fuel : nat) :
  ∀ (fuel' : nat) (low high : Z),
    (0 ≤ low)%Z →
    (high - low + 1 ≤ Z.of_nat fuel)%Z → (high - low + 1 ≤ Z.of_nat fuel')%Z →
    search_loop fuel txt SA pat m low high
    = search_loop fuel' txt SA pat m low high.
Proof.
  induction fuel as [| fuel IH]; intros fuel' low high Hlow Hf Hf'.
  - destruct fuel' as [| fuel']; [done |]. cbn [search_loop].
    destruct (Z.leb_spec low high); [lia | done].
  - destruct fuel' as [| fuel']; cbn [search_loop];
      destruct (Z.leb_spec low high) as [Hle | Hgt]; try done; try lia.
    cbn zeta.
    assert (low ≤ (low + high) ÷ 2 ≤ high)%Z.
    { rewrite Z.quot_div_nonneg by lia.
      split; [apply Z.div_le_lower_bound | apply Z.div_le_upper_bound]; lia. }
    destruct (_ =? 0)%Z; [done |].
    destruct (_ <? 0)%Z; apply IH; lia.
Qed.

(** ** Sorting rank pairs that are all different *)

(** When no two elements carry the same rank pair, the contract leaves
    [qsort] one possible result. *)
Lemma qsort_distinct_keys `{CImpl} (l : list Suffix) :
  NoDup ((λ s, (rank0 s, rank1 s)) <$> l) →
  qsort cmpSuffix l = sort_by cmpSuffix l.
Proof.
  intros Hnd.
  apply (StronglySorted_unique_strong (λ a b, (cmpSuffix a b ≤ 0)%Z)).
  - intros x y Hx Hy Hxy Hyx.
    rewrite (qsort_permutation _ cmpSuffix l) in Hx.
    unfold sort_by in Hy. rewrite merge_sort_Permutation in Hy.
    apply list_elem_of_lookup_1 in Hx as [i Hi].
    apply list_elem_of_lookup_1 in Hy as [j Hj].
    assert (Hkey : (rank0 x, rank1 x) = (rank0 y, rank1 y)).
    { apply cmpSuffix_le_key in Hxy, Hyx.
      rewrite (key_compare_antisym x y) in Hyx.
      destruct (key_compare x y) eqn:Hc; try done.
      apply key_compare_Eq in Hc as [-> ->]. done. }
    assert (i = j) as ->.
    { apply (NoDup_lookup _ i j (rank0 x, rank1 x) Hnd);
        rewrite list_lookup_fmap; [by rewrite Hi | by rewrite Hj, Hkey]. }
    congruence.
  - apply qsort_sorted, cmpSuffix_comparator.
  - apply (@qsort_sorted (merge_sort_impl true)), cmpSuffix_comparator.
  - rewrite (qsort_permutation _ cmpSuffix l).
    unfold sort_by. by rewrite merge_sort_Permutation.
Qed.

(** ** The ranks stay small *)

Lemma char_to_int_range `{CImpl} (c : ascii) :
  (-128 ≤ char_to_int c ≤ 255)%Z.
Proof.
  unfold char_to_int. pose proof (ordinal_range c).
  destruct char_is_signed, (Z.leb_spec 128 (ordinal c)); simpl; lia.
Qed.

Lemma rerank_from_upper (l : list Suffix) :
  ∀ (rank prev_rank prev_rank1 : Z) (i : nat) (s' : Suffix),
    rerank_from rank prev_rank prev_rank1 l !! i = Some s' →
    (rank ≤ rank0 s' ≤ rank + Z.of_nat i + 1)%Z.
Proof.
  induction l as [| x l IH]; intros rank pr pr1 i s' Hs'; [done |].
  rewrite rerank_from_cons in Hs'. cbn zeta in Hs'.
  set (r := if (rank0 x =? pr)%Z && (rank1 x =? pr1)%Z
            then rank else (rank + 1)%Z) in *.
  assert (rank ≤ r ≤ rank + 1)%Z
    by (subst r; destruct (_ && _); lia).
  destruct i as [| i]; simpl in Hs'.
  - injection Hs' as <-. simpl. lia.
  - apply IH in Hs'. lia.
Qed.

Lemma rerank_upper (l : list Suffix) (s' : Suffix) :
  s' ∈ rerank l → (0 ≤ rank0 s' < Z.of_nat (length l))%Z.
Proof.
  intros [i Hs']%list_elem_of_lookup_1.
  pose proof (lookup_lt_Some _ _ _ Hs') as Hi. rewrite rerank_length in Hi.
  destruct l as [| x l]; [done |].
  rewrite length_cons in Hi |- *.
  destruct i as [| i]; simpl in Hs'.
  - injection Hs' as <-. simpl. lia.
  - apply rerank_from_upper in Hs'. lia.
Qed.

(** Every state of the doubling loop holds [n] suffixes whose ranks lie
    between -128 and [max 255 n]. *)
Lemma state_before_bounds `{CImpl} (txt : list ascii) (n j : nat) :
  length (state_before j txt n) = n ∧
  ∀ s, s ∈ state_before j txt n →
    (-128 ≤ rank0 s ≤ Z.max 255 (Z.of_nat n))%Z ∧
    (-128 ≤ rank1 s ≤ Z.max 255 (Z.of_nat n))%Z.
Proof.
  induction j as [| j [IHlen IH]]; cbn [state_before].
  - unfold seed_sorted. split.
    + rewrite (Permutation_length (qsort_permutation _ cmpSuffix _)).
      unfold init_suffixes. by rewrite length_fmap, length_seq.
    + intros s Hs. rewrite (qsort_permutation _ cmpSuffix) in Hs.
      apply list_elem_of_fmap in Hs as [i [-> _]]. simpl.
      pose proof (char_to_int_range (nth i txt NUL)).
      pose proof (char_to_int_range (nth (i + 1) txt NUL)).
      destruct (i + 1 <? n); lia.
  - unfold doubling_step. cbn zeta.
    set (sufs := state_before j txt n) in *.
    split.
    + rewrite (Permutation_length (qsort_permutation _ cmpSuffix _)).
      unfold next_rank. by rewrite length_fmap, rerank_length.
    + intros s Hs. rewrite (qsort_permutation _ cmpSuffix) in Hs.
      apply list_elem_of_fmap in Hs as [a [-> Ha]]. cbn [rank0 rank1].
      pose proof (rerank_upper sufs a Ha) as Hra.
      split; [lia |].
      destruct (_ <? n); [| lia].
      set (q := nth _ (fill_ind n (rerank sufs)) 0).
      destruct (nth_lookup_or_length (rerank sufs) q dummy_suffix)
        as [Hq | Hq].
      * apply list_elem_of_lookup_2, rerank_upper in Hq. lia.
      * rewrite nth_overflow by done. simpl. lia.
Qed.

(** * The claims of the specification *)

(** ** Facts about the samples *)

Lemma banana_nonneg `{CImpl} : nonneg_chars banana.
Proof.
  unfold nonneg_chars, banana.
  repeat constructor; apply Z.le_trans with (ordinal "a"); try done;
    unfold char_to_int; destruct char_is_signed; by vm_compute.
Qed.

Lemma abab_nonneg `{CImpl} : nonneg_chars abab.
Proof.
  unfold nonneg_chars, abab.
  repeat constructor; apply Z.le_trans with (ordinal "a"); try done;
    unfold char_to_int; destruct char_is_signed; by vm_compute.
Qed.

Lemma banana_valid : valid_sa banana banana_sa.
Proof.
  replace banana_sa
    with (@buildSuffixArray impl_unsigned banana (length banana))
    by (by vm_compute).
  apply buildSuffixArray_valid, banana_nonneg.
Qed.

(** ** [buildSuffixArray] *)

(** C1, evaluated where it fails.  On every implementation whose plain
    [char] is signed, the bytes 0xC3 and 0xA9 are read as negative ranks
    and sort below the end marker -1: on the text "a" 0xC3 0xA9 "a" the
    function returns [2; 1; 0; 3], in which the whole text (offset 0)
    stands before its own prefix "a" (offset 3), so the array is not
    sorted; the search for "a" in it then reports -1. *)
Lemma buildSuffixArray_signed_high_bytes `{CImpl} :
  char_is_signed = true →
  buildSuffixArray high_bytes 4 = [2; 1; 0; 3] ∧
  ¬ sorted_sa high_bytes (buildSuffixArray high_bytes 4) ∧
  searchPattern high_bytes (buildSuffixArray high_bytes 4) 4 ["a"%char]
  = (-1)%Z.
Proof.
  intros Hsigned.
  assert (Hresult : buildSuffixArray high_bytes 4 = [2; 1; 0; 3]).
  { destruct H as [sgn qs Hperm Hsorted]. simpl in Hsigned. subst sgn.
    unfold buildSuffixArray, seed_sorted.
    rewrite doubling_loop_S. change (4 <? 2 * 4) with true. cbv iota.
    rewrite doubling_loop_S. change (2 * 4 <? 2 * 4) with false. cbv iota.
    unfold doubling_step. cbn zeta.
    rewrite (qsort_distinct_keys (init_suffixes high_bytes 4))
      by (apply (bool_decide_unpack _); by vm_compute).
    match goal with
    | |- context [sort_by cmpSuffix ?l] =>
      let l' := eval vm_compute in (sort_by cmpSuffix l) in
      replace (sort_by cmpSuffix l) with l' by (by vm_compute)
    end.
    match goal with
    | |- context [next_rank 4 4 ?ind ?l] =>
      let l' := eval vm_compute in (next_rank 4 4 ind l) in
      replace (next_rank 4 4 ind l) with l' by (by vm_compute)
    end.
    rewrite qsort_distinct_keys
      by (apply (bool_decide_unpack _); by vm_compute).
    by vm_compute. }
  rewrite Hresult.
  split; [done |]. split; [| by vm_compute].
  intros Hsorted. by apply (Hsorted 2 0 3).
Qed.

Lemma buildSuffixArray_signed_high_bytes_witness :
  @char_is_signed impl_signed = true ∧
  @buildSuffixArray impl_signed high_bytes 4 = [2; 1; 0; 3].
Proof.
  split; [done |].
  by apply (@buildSuffixArray_signed_high_bytes impl_signed).
Defined.

(** C2.  For every text of length N, on every implementation, the array
    returned by [buildSuffixArray] has length N and is a permutation of
    the offsets 0 .. N-1: no offset is repeated and an offset occurs in it
    exactly when it is below N.  N is at most 2^29, the lengths for which
    the [int]s [k] and [2 * n] of the doubling loop (line 112) do not
    overflow. *)
Theorem buildSuffixArray_permutation `{CImpl} (txt : list ascii) :
  (Z.of_nat (length txt) ≤ 2 ^ 29)%Z →
  length (buildSuffixArray txt (length txt)) = length txt ∧
  buildSuffixArray txt (length txt) ≡ₚ seq 0 (length txt) ∧
  NoDup (buildSuffixArray txt (length txt)) ∧
  ∀ i, i ∈ buildSuffixArray txt (length txt) ↔ i < length txt.
Proof.
  intros _.
  pose proof (buildSuffixArray_perm txt (length txt)) as Hperm.
  split; [by apply perm_seq_length |]. split; [done |].
  split; [by apply perm_seq_NoDup with (length txt) |].
  intros i. by apply perm_seq_elem.
Qed.

Lemma buildSuffixArray_permutation_witness :
  (Z.of_nat (length banana) ≤ 2 ^ 29)%Z ∧
  length (@buildSuffixArray impl_signed banana (length banana))
  = length banana ∧
  @buildSuffixArray impl_signed banana (length banana)
  ≡ₚ seq 0 (length banana) ∧
  NoDup (@buildSuffixArray impl_signed banana (length banana)) ∧
  ∀ i, i ∈ @buildSuffixArray impl_signed banana (length banana)
       ↔ i < length banana.
Proof.
  assert (Hn : (Z.of_nat (length banana) ≤ 2 ^ 29)%Z) by (by vm_compute).
  split; [done |].
  apply (@buildSuffixArray_permutation impl_signed banana Hn).
Defined.

(** C7.  On the empty text [buildSuffixArray] returns the empty array, and
    on every text of length 1 it returns the array [0]. *)
Theorem buildSuffixArray_small `{CImpl} :
  buildSuffixArray [] 0 = [] ∧ ∀ c : ascii, buildSuffixArray [c] 1 = [0].
Proof.
  split.
  - apply Permutation_nil_r, (buildSuffixArray_perm [] 0).
  - intros c. apply Permutation_singleton_r, (buildSuffixArray_perm [c] 1).
Qed.

(** C6 as stated fails.  On "abab", after the re-ranking pass of the first
    doubling iteration (k = 4), the suffixes at offsets 0 and 2 both carry
    rank 0, yet their first 4 bytes, "abab" and "ab", differ.  After the
    seed sort (k = 2) the suffixes at offsets 1 and 3 both carry rank 98,
    yet their first 2 bytes, "ba" and "b", differ. *)
Lemma rerank_does_not_classify_k_bytes :
  ¬ rank0_classifies abab 4
      (rerank (@state_before impl_unsigned 0 abab (length abab))) ∧
  ¬ rank0_classifies abab 2 (@seed_sorted impl_unsigned abab (length abab)).
Proof.
  split; intros Hclass.
  - assert (Hstate :
      rerank (@state_before impl_unsigned 0 abab (length abab))
      = [mkSuffix 0 0 98; mkSuffix 2 0 98;
         mkSuffix 3 1 (-1); mkSuffix 1 2 97])
      by (by vm_compute).
    rewrite Hstate in Hclass.
    assert (Heq : pre abab (4 `min` length abab) 0
                  = pre abab (4 `min` length abab) 2).
    { apply (Hclass (mkSuffix 0 0 98) (mkSuffix 2 0 98)); [| | done].
      - apply list_elem_of_here.
      - apply list_elem_of_further, list_elem_of_here. }
    by vm_compute in Heq.
  - assert (Hstate :
      @seed_sorted impl_unsigned abab (length abab)
      = [mkSuffix 0 97 98; mkSuffix 2 97 98;
         mkSuffix 3 98 (-1); mkSuffix 1 98 97])
      by (by vm_compute).
    rewrite Hstate in Hclass.
    assert (Heq : pre abab (2 `min` length abab) 3
                  = pre abab (2 `min` length abab) 1).
    { apply (Hclass (mkSuffix 3 98 (-1)) (mkSuffix 1 98 97)); [| | done].
      - do 2 apply list_elem_of_further. apply list_elem_of_here.
      - do 3 apply list_elem_of_further. apply list_elem_of_here. }
    by vm_compute in Heq.
Qed.

(** C6, amended.  On text whose bytes read as non-negative [char]s: after
    the seed sort two suffixes carry equal [rank[0]] exactly when their
    first byte is the same, and after the re-ranking pass of the doubling
    iteration for prefix length k (every k = 4 * 2^j the loop reaches)
    they carry equal dense [rank[0]] exactly when their first
    min(k/2, N) bytes are identical. *)
Theorem rerank_classifies_half `{CImpl} (txt : list ascii) :
  nonneg_chars txt →
  rank0_classifies txt 1 (seed_sorted txt (length txt)) ∧
  ∀ j, 4 * 2 ^ j < 2 * length txt →
    rank0_classifies txt (4 * 2 ^ j / 2)
      (rerank (state_before j txt (length txt))).
Proof.
  intros Hnn. split; [by apply seed_classifies |].
  intros j _. apply rerank_classifies.
  replace (4 * 2 ^ j / 2) with (2 * 2 ^ j); [by apply state_before_inv |].
  replace (4 * 2 ^ j) with (2 * 2 ^ j + 2 * 2 ^ j) by lia.
  by rewrite half_double.
Qed.

Lemma rerank_classifies_half_witness :
  @nonneg_chars impl_unsigned abab ∧
  rank0_classifies abab 2
    (rerank (@state_before impl_unsigned 0 abab (length abab))).
Proof.
  split; [apply abab_nonneg |].
  apply (proj2 (@rerank_classifies_half impl_unsigned abab abab_nonneg) 0).
  vm_compute. lia.
Defined.

(** ** [buildLCPArray] *)

(** C3.  For every text of length N and every valid suffix array SA for
    it, the array returned by [buildLCPArray] holds, at every sorted
    position p in 0 .. N-2, the length of the longest common prefix of the
    suffixes starting at SA[p] and at SA[p+1]. *)
Theorem buildLCPArray_correct (txt : list ascii) (SA : list nat) (p : nat) :
  valid_sa txt SA → S p < length txt →
  ∃ i j, SA !! p = Some i ∧ SA !! S p = Some j ∧
         buildLCPArray txt (length txt) SA !! p
         = Some (Some (lcp_len (drop i txt) (drop j txt))).
Proof.
  intros Hvalid Hp.
  destruct (SA_lookup txt SA Hvalid p) as (i & _ & Hi & Hni); [lia |].
  destruct (SA_lookup txt SA Hvalid (S p) Hp) as (j & _ & Hj & Hnj).
  exists i, j. split; [done |]. split; [done |].
  rewrite (buildLCPArray_cell txt SA Hvalid p) by lia.
  rewrite decide_True by lia. unfold lcp_at. by rewrite Hni, Hnj.
Qed.

Lemma buildLCPArray_correct_witness :
  valid_sa banana banana_sa ∧ 2 < length banana ∧
  ∃ i j, banana_sa !! 1 = Some i ∧ banana_sa !! 2 = Some j ∧
         buildLCPArray banana (length banana) banana_sa !! 1
         = Some (Some (lcp_len (drop i banana) (drop j banana))).
Proof.
  split; [apply banana_valid |]. split; [vm_compute; lia |].
  apply (buildLCPArray_correct banana banana_sa 1 banana_valid).
  vm_compute. lia.
Defined.

(** C10.  For every text of length N >= 1 and valid suffix array, the
    output of [buildLCPArray] has N slots; the positions 0 .. N-2 hold
    assigned values, and the slot N-1 is written at no point of the loop,
    so it keeps the indeterminate content it was allocated with. *)
Theorem buildLCPArray_last_slot (txt : list ascii) (SA : list nat) :
  valid_sa txt SA → 0 < length txt →
  length (buildLCPArray txt (length txt) SA) = length txt ∧
  (∀ p, S p < length txt →
     ∃ v, buildLCPArray txt (length txt) SA !! p = Some (Some v)) ∧
  (∀ i, i ≤ length txt →
     (kasai_state txt SA i).2 !! (length txt - 1) = Some None) ∧
  buildLCPArray txt (length txt) SA !! (length txt - 1) = Some None.
Proof.
  intros Hvalid Hn.
  split; [by apply buildLCPArray_length |]. split; [| split].
  - intros p Hp. exists (lcp_at txt SA p).
    rewrite (buildLCPArray_cell txt SA Hvalid p) by lia.
    by rewrite decide_True by lia.
  - intros i Hi.
    destruct (SA_lookup txt SA Hvalid (length txt - 1)) as (x & _ & Hx & _);
      [lia |].
    rewrite (kasai_cells txt SA i _ (kasai_inv_state txt SA Hvalid i Hi)
               (length txt - 1) x Hx).
    rewrite decide_False; [done | lia].
  - rewrite (buildLCPArray_cell txt SA Hvalid (length txt - 1)) by lia.
    rewrite decide_False; [done | lia].
Qed.

Lemma buildLCPArray_last_slot_witness :
  valid_sa banana banana_sa ∧ 0 < length banana ∧
  buildLCPArray banana (length banana) banana_sa
    !! (length banana - 1) = Some None.
Proof.
  split; [apply banana_valid |]. split; [vm_compute; lia |].
  apply (buildLCPArray_last_slot banana banana_sa banana_valid).
  vm_compute. lia.
Defined.

(** ** [searchPattern] *)

(** C4.  For every text, every valid suffix array for it and every
    pattern of length m, a non-negative result o of [searchPattern] is a
    valid start offset, o + m <= N, and the m bytes of the text from o on
    are the pattern.  N is at most 2^30, the lengths for which the [int]
    sum [low + high] of line 199 does not overflow, and m is at most
    [INT_MAX], as it is stored in the [int m] of line 195. *)
Theorem searchPattern_soundness (txt : list ascii) (SA : list nat)
    (pat : list ascii) :
  (Z.of_nat (length txt) ≤ 2 ^ 30)%Z →
  (Z.of_nat (length pat) ≤ INT_MAX)%Z →
  valid_sa txt SA → NUL ∉ pat →
  (0 ≤ searchPattern txt SA (length txt) pat)%Z →
  ∃ o, searchPattern txt SA (length txt) pat = Z.of_nat o ∧
       o + length pat ≤ length txt ∧
       take (length pat) (drop o txt) = pat.
Proof.
  intros _ _ Hvalid Hpat Hret.
  exists (Z.to_nat (searchPattern txt SA (length txt) pat)).
  assert (Ho : searchPattern txt SA (length txt) pat
               = Z.of_nat (Z.to_nat (searchPattern txt SA (length txt) pat)))
    by lia.
  split; [done |]. by apply (searchPattern_sound txt SA pat).
Qed.

Lemma searchPattern_soundness_witness :
  (Z.of_nat (length banana) ≤ 2 ^ 30)%Z ∧
  (Z.of_nat (length ana) ≤ INT_MAX)%Z ∧
  valid_sa banana banana_sa ∧ (NUL ∉ ana) ∧
  (0 ≤ searchPattern banana banana_sa (length banana) ana)%Z ∧
  ∃ o, searchPattern banana banana_sa (length banana) ana = Z.of_nat o ∧
       o + length ana ≤ length banana ∧
       take (length ana) (drop o banana)
       = ana.
Proof.
  assert (Hn : (Z.of_nat (length banana) ≤ 2 ^ 30)%Z) by (by vm_compute).
  assert (Hm : (Z.of_nat (length ana) ≤ INT_MAX)%Z) by (by vm_compute).
  assert (Hpat : NUL ∉ ana).
  { unfold ana. rewrite !not_elem_of_cons.
    repeat split; try done. apply not_elem_of_nil. }
  split; [done |]. split; [done |].
  split; [apply banana_valid |]. split; [done |].
  split; [by vm_compute |].
  apply (searchPattern_soundness banana banana_sa _ Hn Hm banana_valid Hpat).
  by vm_compute.
Defined.

(** C5.  For every text, its valid suffix array and every pattern that
    occurs in the text at one of the N start offsets, [searchPattern] does
    not return the not-found value -1.  N is at most 2^30, the lengths for
    which the [int] sum [low + high] of line 199 does not overflow. *)
Theorem searchPattern_no_false_negative (txt : list ascii) (SA : list nat)
    (pat : list ascii) (o : nat) :
  (Z.of_nat (length txt) ≤ 2 ^ 30)%Z →
  valid_sa txt SA → NUL ∉ pat →
  o < length txt → take (length pat) (drop o txt) = pat →
  searchPattern txt SA (length txt) pat ≠ (-1)%Z.
Proof.
  intros _ Hvalid Hpat Ho Hocc.
  pose proof (searchPattern_complete txt SA pat Hvalid Hpat o Ho Hocc). lia.
Qed.

Lemma searchPattern_no_false_negative_witness :
  (Z.of_nat (length banana) ≤ 2 ^ 30)%Z ∧
  valid_sa banana banana_sa ∧ (NUL ∉ ana) ∧
  3 < length banana ∧
  take (length ana) (drop 3 banana) = ana ∧
  searchPattern banana banana_sa (length banana)
    ana ≠ (-1)%Z.
Proof.
  assert (Hn : (Z.of_nat (length banana) ≤ 2 ^ 30)%Z) by (by vm_compute).
  assert (Hpat : NUL ∉ ana).
  { unfold ana. rewrite !not_elem_of_cons.
    repeat split; try done. apply not_elem_of_nil. }
  split; [done |].
  split; [apply banana_valid |]. split; [done |].
  split; [vm_compute; lia |]. split; [done |].
  apply (searchPattern_no_false_negative banana banana_sa _ 3
           Hn banana_valid Hpat); [vm_compute; lia | done].
Defined.

(** C8.  For every non-empty text with a valid suffix array,
    [searchPattern] with the empty pattern returns SA[(N-1)/2], the offset
    at the first position the binary search probes; it is an offset below
    N, and so never the value -1. *)
Theorem searchPattern_empty_pattern (txt : list ascii) (SA : list nat) :
  valid_sa txt SA → 0 < length txt →
  ∃ o, SA !! ((length txt - 1) / 2) = Some o ∧ o < length txt ∧
       searchPattern txt SA (length txt) [] = Z.of_nat o ∧
       searchPattern txt SA (length txt) [] ≠ (-1)%Z.
Proof.
  intros Hvalid Hn.
  destruct (SA_lookup txt SA Hvalid ((length txt - 1) / 2))
    as (o & Ho & HSA & Hnth).
  { apply Nat.lt_le_trans with (S (length txt - 1)); [| lia].
    apply Nat.lt_succ_r, Nat.Div0.div_le_upper_bound. lia. }
  exists o. split; [done |]. split; [done |].
  assert (Hret : searchPattern txt SA (length txt) [] = Z.of_nat o).
  { unfold searchPattern. cbn [search_loop length strncmp].
    destruct (Z.leb_spec 0 (Z.of_nat (length txt) - 1)) as [_ | ?]; [| lia].
    cbn zeta. cbn [Z.eqb].
    rewrite Z.add_0_l, Z.quot_div_nonneg by lia.
    replace (Z.of_nat (length txt) - 1)%Z with (Z.of_nat (length txt - 1))
      by lia.
    change 2%Z with (Z.of_nat 2).
    by rewrite <- Nat2Z.inj_div, Nat2Z.id, Hnth. }
  split; [done | lia].
Qed.

Lemma searchPattern_empty_pattern_witness :
  valid_sa banana banana_sa ∧ 0 < length banana ∧
  ∃ o, banana_sa !! ((length banana - 1) / 2) = Some o ∧
       o < length banana ∧
       searchPattern banana banana_sa (length banana) []
       = Z.of_nat o ∧
       searchPattern banana banana_sa (length banana) [] ≠ (-1)%Z.
Proof.
  split; [apply banana_valid |]. split; [vm_compute; lia |].
  apply (searchPattern_empty_pattern banana banana_sa banana_valid).
  vm_compute. lia.
Defined.

(** C9.  On the empty text [searchPattern] returns -1 for every pattern,
    the empty one included, whatever the array it is handed: the range
    0 .. -1 is empty and the loop condition fails at once. *)
Theorem searchPattern_empty_text (SA : list nat) (pat : list ascii) :
  searchPattern [] SA 0 pat = (-1)%Z.
Proof. done. Qed.

(** ** Further properties *)

(** X1.  On every implementation, for every text of at most 2^29 bytes
    (the lengths for which the [int]s of line 112 do not overflow) that
    read as non-negative [char]s, the array returned by
    [buildSuffixArray] is sorted: the suffix at each position is
    lexicographically not greater than the suffix at the next one. *)
Theorem buildSuffixArray_sorted_nonneg `{CImpl} (txt : list ascii)
    (p i j : nat) :
  (Z.of_nat (length txt) ≤ 2 ^ 29)%Z →
  nonneg_chars txt →
  buildSuffixArray txt (length txt) !! p = Some i →
  buildSuffixArray txt (length txt) !! S p = Some j →
  lex_le (drop i txt) (drop j txt).
Proof.
  intros _ Hnn. by apply (proj2 (buildSuffixArray_valid txt Hnn)).
Qed.

Lemma buildSuffixArray_sorted_nonneg_witness :
  (Z.of_nat (length banana) ≤ 2 ^ 29)%Z ∧
  @nonneg_chars impl_signed banana ∧
  @buildSuffixArray impl_signed banana (length banana) !! 1 = Some 3 ∧
  @buildSuffixArray impl_signed banana (length banana) !! 2 = Some 1 ∧
  lex_le (drop 3 banana) (drop 1 banana).
Proof.
  assert (Hn : (Z.of_nat (length banana) ≤ 2 ^ 29)%Z) by (by vm_compute).
  split; [done |].
  split; [apply banana_nonneg |]. split; [by vm_compute |].
  split; [by vm_compute |].
  apply (@buildSuffixArray_sorted_nonneg impl_signed banana 1 3 1
           Hn banana_nonneg); by vm_compute.
Defined.

(** X2.  Where plain [char] is unsigned, [buildSuffixArray] returns a
    valid suffix array for every text of at most 2^29 bytes, the lengths
    for which the [int]s of line 112 do not overflow. *)
Theorem buildSuffixArray_valid_unsigned `{CImpl} (txt : list ascii) :
  (Z.of_nat (length txt) ≤ 2 ^ 29)%Z →
  char_is_signed = false → valid_sa txt (buildSuffixArray txt (length txt)).
Proof.
  intros _ Hunsigned. apply buildSuffixArray_valid.
  apply Forall_forall. intros c _.
  unfold char_to_int. rewrite Hunsigned. apply ordinal_range.
Qed.

Lemma buildSuffixArray_valid_unsigned_witness :
  (Z.of_nat (length high_bytes) ≤ 2 ^ 29)%Z ∧
  @char_is_signed impl_unsigned = false ∧
  valid_sa high_bytes
    (@buildSuffixArray impl_unsigned high_bytes (length high_bytes)).
Proof.
  assert (Hn : (Z.of_nat (length high_bytes) ≤ 2 ^ 29)%Z) by (by vm_compute).
  split; [done |]. split; [done |].
  by apply (@buildSuffixArray_valid_unsigned impl_unsigned high_bytes Hn).
Defined.

(** X3.  For n up to 2^29 the doubling loop leaves by its condition, and
    within the range of [int]: [buildSuffixArray] returns the offsets of
    the state reached after the iterations j = 0 .. J-1, which are those
    with 4 * 2^j < 2 * n; every value 4 * 2^j that [k] takes, the last one
    included, and [2 * n] are at most [INT_MAX]. *)
Theorem buildSuffixArray_iterations `{CImpl} (txt : list ascii) (n : nat) :
  (Z.of_nat n ≤ 2 ^ 29)%Z →
  ∃ J, (∀ j, j < J → 4 * 2 ^ j < 2 * n) ∧
       ¬ 4 * 2 ^ J < 2 * n ∧
       (∀ j, j ≤ J → (Z.of_nat (4 * 2 ^ j) ≤ INT_MAX)%Z) ∧
       (Z.of_nat (2 * n) ≤ INT_MAX)%Z ∧
       buildSuffixArray txt n = index <$> state_before J txt n.
Proof.
  intros Hn.
  destruct (buildSuffixArray_states txt n) as (J & Hlt & Hge & Hres).
  assert (H29 : (2 ^ 29 = 536870912)%Z) by done.
  assert (Hmax : INT_MAX = 2147483647%Z) by done.
  exists J. split; [done |]. split; [done |].
  split; [| split; [lia | done]].
  intros [| j] Hj; [simpl; lia |].
  specialize (Hlt j ltac:(lia)).
  rewrite Nat.pow_succ_r'. lia.
Qed.

Lemma buildSuffixArray_iterations_witness :
  (Z.of_nat 6 ≤ 2 ^ 29)%Z ∧
  ∃ J, (∀ j, j < J → 4 * 2 ^ j < 2 * 6) ∧
       ¬ 4 * 2 ^ J < 2 * 6 ∧
       (∀ j, j ≤ J → (Z.of_nat (4 * 2 ^ j) ≤ INT_MAX)%Z) ∧
       (Z.of_nat (2 * 6) ≤ INT_MAX)%Z ∧
       @buildSuffixArray impl_signed banana 6
       = index <$> @state_before impl_signed J banana 6.
Proof.
  assert (Hn : (Z.of_nat 6 ≤ 2 ^ 29)%Z) by (by vm_compute).
  split; [done |].
  apply (@buildSuffixArray_iterations impl_signed banana 6 Hn).
Defined.

(** X4.  For a valid suffix array every value of the LCP array is at most
    the length of either suffix it compares. *)
Theorem buildLCPArray_bound (txt : list ascii) (SA : list nat) (p : nat) :
  valid_sa txt SA → S p < length txt →
  ∃ i j v, SA !! p = Some i ∧ SA !! S p = Some j ∧
           buildLCPArray txt (length txt) SA !! p = Some (Some v) ∧
           v ≤ (length txt - i) `min` (length txt - j).
Proof.
  intros Hvalid Hp.
  destruct (SA_lookup txt SA Hvalid p) as (i & _ & Hi & Hni); [lia |].
  destruct (SA_lookup txt SA Hvalid (S p) Hp) as (j & _ & Hj & Hnj).
  exists i, j, (lcp_len (drop i txt) (drop j txt)).
  split; [done |]. split; [done |]. split.
  - rewrite (buildLCPArray_cell txt SA Hvalid p) by lia.
    rewrite decide_True by lia. unfold lcp_at. by rewrite Hni, Hnj.
  - pose proof (lcp_len_le_l (drop i txt) (drop j txt)) as Hl.
    assert (Hr : lcp_len (drop i txt) (drop j txt) ≤ length (drop j txt)).
    { clear. generalize (drop i txt) (drop j txt). intros a.
      induction a as [| x a IH]; intros [| y b]; simpl; try lia.
      destruct (Ascii.eqb x y); [| lia]. specialize (IH b). lia. }
    rewrite length_drop in Hl, Hr. lia.
Qed.

Lemma buildLCPArray_bound_witness :
  valid_sa banana banana_sa ∧ 2 < length banana ∧
  ∃ i j v, banana_sa !! 1 = Some i ∧ banana_sa !! 2 = Some j ∧
           buildLCPArray banana (length banana) banana_sa !! 1
           = Some (Some v) ∧
           v ≤ (length banana - i) `min` (length banana - j).
Proof.
  split; [apply banana_valid |]. split; [vm_compute; lia |].
  apply (buildLCPArray_bound banana banana_sa 1 banana_valid).
  vm_compute. lia.
Defined.

(** X5.  On text of at most 2^29 bytes that read as non-negative
    [char]s, searching the array built by [buildSuffixArray] for a
    pattern of at most [INT_MAX] bytes is exact: the result differs from
    -1 exactly when the pattern occurs at some offset of the text.  The
    bounds are those within which the [int]s of lines 112, 195 and 199 do
    not overflow. *)
Theorem searchPattern_built_exact `{CImpl} (txt pat : list ascii) :
  (Z.of_nat (length txt) ≤ 2 ^ 29)%Z →
  (Z.of_nat (length pat) ≤ INT_MAX)%Z →
  nonneg_chars txt → NUL ∉ pat →
  searchPattern txt (buildSuffixArray txt (length txt)) (length txt) pat
    ≠ (-1)%Z
  ↔ ∃ o, o < length txt ∧ take (length pat) (drop o txt) = pat.
Proof.
  intros _ _ Hnn Hpat.
  pose proof (buildSuffixArray_valid txt Hnn) as Hvalid.
  set (SA := buildSuffixArray txt (length txt)) in *.
  split.
  - intros Hfound.
    destruct (search_loop_sound txt SA pat (S (length txt)) 0
                (Z.of_nat (length txt) - 1))
      as [Hnone | (p & Hp & Hres & _)]; [lia | lia | done |].
    destruct (SA_lookup txt SA Hvalid p Hp) as (o & Ho & _ & Hnth).
    exists o. split; [done |].
    unfold res_at in Hres. rewrite Hnth in Hres.
    by apply strncmp_zero in Hres.
  - intros (o & Ho & Hocc).
    pose proof (searchPattern_complete txt SA pat Hvalid Hpat o Ho Hocc). lia.
Qed.

Lemma searchPattern_built_exact_witness :
  (Z.of_nat (length banana) ≤ 2 ^ 29)%Z ∧
  (Z.of_nat (length ana) ≤ INT_MAX)%Z ∧
  @nonneg_chars impl_signed banana ∧ (NUL ∉ ana) ∧
  (searchPattern banana
     (@buildSuffixArray impl_signed banana (length banana))
     (length banana) ana ≠ (-1)%Z
   ↔ ∃ o, o < length banana ∧ take (length ana) (drop o banana) = ana).
Proof.
  assert (Hn : (Z.of_nat (length banana) ≤ 2 ^ 29)%Z) by (by vm_compute).
  assert (Hm : (Z.of_nat (length ana) ≤ INT_MAX)%Z) by (by vm_compute).
  assert (Hpat : NUL ∉ ana).
  { unfold ana. rewrite !not_elem_of_cons.
    repeat split; try done. apply not_elem_of_nil. }
  split; [done |]. split; [done |].
  split; [apply banana_nonneg |]. split; [done |].
  apply (@searchPattern_built_exact impl_signed banana ana
           Hn Hm banana_nonneg Hpat).
Defined.

(** The examples of the specification: "banana" has suffix array
    [5; 3; 1; 0; 4; 2] and LCP values 1, 3, 0, 0, 2; "aaaa" has suffix
    array [3; 2; 1; 0] and LCP values 1, 2, 3; in "banana" the search for
    "ana" returns 1 and the search for "xyz" returns -1. *)
Example spec_examples :
  @buildSuffixArray impl_signed banana 6 = [5; 3; 1; 0; 4; 2] ∧
  buildLCPArray banana 6 banana_sa
  = [Some 1; Some 3; Some 0; Some 0; Some 2; None] ∧
  @buildSuffixArray impl_signed ["a"; "a"; "a"; "a"]%char 4 = [3; 2; 1; 0] ∧
  buildLCPArray ["a"; "a"; "a"; "a"]%char 4 [3; 2; 1; 0]
  = [Some 1; Some 2; Some 3; None] ∧
  searchPattern banana banana_sa 6 ana = 1%Z ∧
  searchPattern banana banana_sa 6 ["x"; "y"; "z"]%char = (-1)%Z.
Proof. repeat split; by vm_compute. Qed.

(** X7.  In every state of the doubling loop the ranks lie between -128
    and max(255, n), so the differences [cmpSuffix] returns are at most
    max(255, n) + 128 in absolute value: for n below 2^30 they are the
    values the C subtraction on [int] yields, without overflow. *)
Theorem cmpSuffix_fits_int `{CImpl} (txt : list ascii) (n j : nat)
    (a b : Suffix) :
  a ∈ state_before j txt n → b ∈ state_before j txt n →
  (-128 ≤ rank0 a ≤ Z.max 255 (Z.of_nat n))%Z ∧
  (-128 ≤ rank1 a ≤ Z.max 255 (Z.of_nat n))%Z ∧
  (Z.abs (cmpSuffix a b) ≤ Z.max 255 (Z.of_nat n) + 128)%Z.
Proof.
  intros Ha Hb.
  destruct (state_before_bounds txt n j) as [_ Hbounds].
  destruct (Hbounds a Ha) as [Ha0 Ha1], (Hbounds b Hb) as [Hb0 Hb1].
  split; [done |]. split; [done |].
  unfold cmpSuffix. destruct (rank0 a =? rank0 b)%Z; lia.
Qed.

Lemma cmpSuffix_fits_int_witness :
  mkSuffix 3 1 0 ∈ @state_before impl_signed 1 banana 6 ∧
  mkSuffix 1 1 1 ∈ @state_before impl_signed 1 banana 6 ∧
  (Z.abs (cmpSuffix (mkSuffix 3 1 0) (mkSuffix 1 1 1)) ≤ 255 + 128)%Z.
Proof.
  assert (Hstate : @state_before impl_signed 1 banana 6
                   = [mkSuffix 5 0 (-1); mkSuffix 3 1 0; mkSuffix 1 1 1;
                      mkSuffix 0 2 3; mkSuffix 4 3 (-1); mkSuffix 2 3 3])
    by (by vm_compute).
  assert (Ha : mkSuffix 3 1 0 ∈ @state_before impl_signed 1 banana 6)
    by (rewrite Hstate; apply list_elem_of_further, list_elem_of_here).
  assert (Hb : mkSuffix 1 1 1 ∈ @state_before impl_signed 1 banana 6)
    by (rewrite Hstate; do 2 apply list_elem_of_further;
        apply list_elem_of_here).
  split; [done |]. split; [done |].
  apply (@cmpSuffix_fits_int impl_signed banana 6 1 _ _ Ha Hb).
Defined.


(** ** Beyond sorted arrays *)

(** *** Which cells Kasai's loop writes *)

Section KasaiCells.
Variable txt : list ascii.
Variable SA : list nat.
Hypothesis Hperm : SA ≡ₚ seq 0 (length txt).

(** For any permutation of the offsets, sorted or not: after the
    iterations below [i], a cell is written exactly when its offset has
    been processed and it is not the last. *)
Lemma kasai_written (i : nat) :
  i ≤ length txt →
  length (kasai_state txt SA i).2 = length txt ∧
  ∀ p x, SA !! p = Some x →
    ∃ c, (kasai_state txt SA i).2 !! p = Some c ∧
         (is_Some c ↔ x < i ∧ p ≠ length txt - 1).
Proof.
  induction i as [| i IH]; intros Hi.
  - split; [apply length_replicate |].
    intros p x Hp. exists None. split.
    + apply lookup_replicate_2. apply lookup_lt_Some in Hp.
      by rewrite (perm_seq_length SA _ Hperm) in Hp.
    + split; [by intros [? ?] | lia].
  - destruct IH as [Hlen Hcells]; [lia |].
    rewrite kasai_state_S.
    destruct (kasai_state txt SA i) as [k lcp]. simpl in Hlen, Hcells.
    destruct (perm_seq_position SA _ i Hperm) as (r & Hr & Hri); [lia |].
    unfold kasai_step.
    rewrite (inverse_lookup SA _ r i Hperm Hri).
    assert (Hsame : ∀ p x, SA !! p = Some x → x = i → p = r).
    { intros p x Hp ->.
      apply (NoDup_lookup SA p r i); [by eapply perm_seq_NoDup | done..]. }
    destruct (Nat.eqb_spec r (length txt - 1)) as [Hlast | Hnot]; simpl.
    + split; [done |]. intros p x Hp.
      destruct (Hcells p x Hp) as (c & Hc & Hiff).
      exists c. split; [done |]. rewrite Hiff.
      split; [lia |]. intros [Hx Hp'].
      destruct (decide (x = i)) as [Hxi | ?]; [| lia].
      specialize (Hsame p x Hp Hxi). lia.
    + split; [by rewrite length_insert |]. intros p x Hp.
      destruct (decide (p = r)) as [-> | Hne].
      * rewrite Hri in Hp. injection Hp as <-.
        eexists. split; [apply list_lookup_insert_eq; lia |].
        split; [lia | by eexists].
      * rewrite list_lookup_insert_ne by done.
        destruct (Hcells p x Hp) as (c & Hc & Hiff).
        exists c. split; [done |]. rewrite Hiff.
        split; [lia |]. intros [Hx Hp'].
        destruct (decide (x = i)) as [Hxi | ?]; [| lia].
        by specialize (Hsame p x Hp Hxi).
Qed.
End KasaiCells.

(** *** The sums of Kasai's loop *)

(** The [while] of line 177 only moves [k] up, and not past the end of the
    suffix at [i]. *)
Lemma extend_bound (fuel : nat) (txt : list ascii) (n i j : nat) :
  ∀ k, i + k ≤ n →
    k ≤ extend fuel txt n i j k ∧ i + extend fuel txt n i j k ≤ n.
Proof.
  induction fuel as [| fuel IH]; intros k Hk; simpl; [lia |].
  destruct (Nat.ltb_spec (i + k) n) as [Hik | ?]; simpl; [| lia].
  destruct (j + k <? n); simpl; [| lia].
  destruct (Ascii.eqb _ _); [| lia].
  destruct (IH (S k)); lia.
Qed.

(** For any array handed to [buildLCPArray], sorted or not: the [k]
    carried into the iteration at offset [i] does not reach past the end
    of the suffix at [i]. *)
Lemma kasai_carried_bound (txt : list ascii) (SA : list nat) (i : nat) :
  i ≤ length txt → i + (kasai_state txt SA i).1 ≤ length txt.
Proof.
  induction i as [| i IH]; intros Hi; [simpl; lia |].
  specialize (IH ltac:(lia)). rewrite kasai_state_S.
  destruct (kasai_state txt SA i) as [k lcp]. simpl in IH.
  unfold kasai_step. destruct (_ =? _); simpl; [lia |].
  match goal with
  | |- context [extend ?f ?t ?n ?a ?b ?c] =>
    destruct (extend_bound f t n a b c IH)
  end.
  lia.
Qed.

(** *** Sorted permutations are unique *)

Lemma StronglySorted_lookup_intro {A : Type} (R : relation A) (l : list A) :
  (∀ p q a b, p < q → l !! p = Some a → l !! q = Some b → R a b) →
  StronglySorted R l.
Proof.
  induction l as [| x l IH]; intros Hl; constructor.
  - apply IH. intros p q a b Hpq Ha Hb. by apply (Hl (S p) (S q)); [lia | |].
  - apply Forall_forall. intros y [q Hq]%list_elem_of_lookup_1.
    by apply (Hl 0 (S q)); [lia | |].
Qed.

Lemma valid_sa_unique (txt : list ascii) (SA1 SA2 : list nat) :
  valid_sa txt SA1 → valid_sa txt SA2 → SA1 = SA2.
Proof.
  intros H1 H2.
  apply (StronglySorted_unique_strong
           (λ i j, lex_le (drop i txt) (drop j txt))).
  - intros i j Hi Hj Hij Hji.
    apply (perm_seq_elem _ _ _ (proj1 H1)) in Hi.
    apply (perm_seq_elem _ _ _ (proj1 H2)) in Hj.
    apply (drop_inj txt); [lia | lia | by apply lex_le_antisym].
  - apply StronglySorted_lookup_intro. intros p q a b Hpq Ha Hb.
    apply (sorted_sa_le txt SA1 H1 p q); [done | done | lia].
  - apply StronglySorted_lookup_intro. intros p q a b Hpq Ha Hb.
    apply (sorted_sa_le txt SA2 H2 p q); [done | done | lia].
  - by rewrite (proj1 H1), (proj1 H2).
Qed.

(** *** The search on any array of offsets *)

Lemma searchPattern_cases (txt : list ascii) (SA : list nat)
    (pat : list ascii) :
  length SA = length txt → Forall (λ o, o < length txt) SA → NUL ∉ pat →
  searchPattern txt SA (length txt) pat = (-1)%Z ∨
  ∃ o, searchPattern txt SA (length txt) pat = Z.of_nat o ∧
       o < length txt ∧ o + length pat ≤ length txt ∧
       take (length pat) (drop o txt) = pat.
Proof.
  intros Hlen Hrange Hpat. unfold searchPattern. cbn zeta.
  destruct (search_loop_sound txt SA pat (S (length txt)) 0
              (Z.of_nat (length txt) - 1))
    as [Hnone | (p & Hp & Hres & Hsome)]; [lia | lia | by left |].
  right. exists (nth p SA 0).
  destruct (lookup_lt_is_Some_2 SA p) as [o Ho]; [lia |].
  rewrite (nth_lookup_Some _ _ 0 _ Ho) in *.
  assert (Hon : o < length txt).
  { rewrite Forall_forall in Hrange. apply Hrange.
    by apply list_elem_of_lookup_2 with p. }
  unfold res_at in Hres. rewrite (nth_lookup_Some _ _ 0 _ Ho) in Hres.
  apply strncmp_zero in Hres; [| done].
  split; [done |]. split; [done |]. split; [| done].
  apply (f_equal length) in Hres.
  rewrite length_take, length_drop in Hres. lia.
Qed.

(** *** The number of probes *)

(** Every probe halves the range: a range of fewer than [2 ^ c] positions
    inside the array is searched to the end with at most [c] probes, each
    on a non-empty range inside the array, and the loop returns before the
    iterations allowed are used up. *)
Lemma search_trace_runs (txt : list ascii) (SA : list nat)
    (pat : list ascii) (m n fuel : nat) :
  ∀ (c : nat) (low high : Z),
    (0 ≤ low ≤ high + 1)%Z → (high < Z.of_nat n)%Z →
    (high - low + 1 < Z.of_nat fuel)%Z →
    (high - low + 1 < Z.of_nat (2 ^ c))%Z →
    ∃ probes,
      search_trace fuel txt SA pat m low high
      = Some (probes, search_loop fuel txt SA pat m low high) ∧
      length probes ≤ c ∧
      Forall (λ lh, (0 ≤ lh.1 ∧ lh.1 ≤ lh.2 ∧ lh.2 < Z.of_nat n)%Z) probes.
Proof.
  induction fuel as [| fuel IH]; intros c low high Hlow Hhigh Hf Hc.
  { exfalso. simpl in Hf. lia. }
  cbn [search_trace search_loop].
  destruct (Z.leb_spec low high) as [Hle | Hgt].
  2: { exists []. split; [done |]. split; [simpl; lia | constructor]. }
  cbn zeta.
  destruct c as [| c]; [simpl in Hc; lia |].
  rewrite Nat.pow_succ_r', Nat2Z.inj_mul in Hc.
  assert (Hq : (2 * ((low + high) ÷ 2) ≤ low + high
                < 2 * ((low + high) ÷ 2) + 2)%Z).
  { rewrite Z.quot_div_nonneg by lia.
    pose proof (Z.div_mod (low + high) 2 ltac:(lia)).
    pose proof (Z.mod_pos_bound (low + high) 2 ltac:(lia)). lia. }
  assert (Hhere : (0 ≤ (low, high).1 ∧ (low, high).1 ≤ (low, high).2
                   ∧ (low, high).2 < Z.of_nat n)%Z) by (simpl; lia).
  destruct (_ =? 0)%Z.
  { exists [(low, high)]. split; [done |]. split; [simpl; lia |].
    constructor; [done | constructor]. }
  destruct (_ <? 0)%Z.
  - destruct (IH c low ((low + high) ÷ 2 - 1)%Z)
      as (probes & -> & Hlen & Hall); [lia.. |].
    exists ((low, high) :: probes).
    split; [done |]. split; [simpl; lia | by constructor].
  - destruct (IH c ((low + high) ÷ 2 + 1)%Z high)
      as (probes & -> & Hlen & Hall); [lia.. |].
    exists ((low, high) :: probes).
    split; [done |]. split; [simpl; lia | by constructor].
Qed.

(** ** Properties of the functions on any input *)

(** X6.  On suffixes whose ranks lie between -2^30 and 2^30 - 1, as those
    of the loop states of [buildSuffixArray] do, the subtraction of
    [cmpSuffix] stays within [int] and [cmpSuffix] is a comparison
    function [qsort] may be called with: its sign is antisymmetric and
    "not greater" is transitive; it returns 0 exactly on equal rank pairs
    and a negative value exactly when the first pair is smaller,
    [rank[0]] first and [rank[1]] on a tie. *)
Theorem cmpSuffix_consistent (a b c : Suffix) :
  ranks_within (2 ^ 30) a → ranks_within (2 ^ 30) b →
  ranks_within (2 ^ 30) c →
  int_range (rank0 a - rank0 b) ∧ int_range (rank1 a - rank1 b) ∧
  int_range (cmpSuffix a b) ∧
  ((cmpSuffix a b < 0)%Z ↔ (0 < cmpSuffix b a)%Z) ∧
  ((cmpSuffix a b ≤ 0)%Z → (cmpSuffix b c ≤ 0)%Z → (cmpSuffix a c ≤ 0)%Z) ∧
  (cmpSuffix a b = 0%Z ↔ rank0 a = rank0 b ∧ rank1 a = rank1 b) ∧
  ((cmpSuffix a b < 0)%Z ↔
   (rank0 a < rank0 b)%Z ∨ (rank0 a = rank0 b ∧ (rank1 a < rank1 b)%Z)).
Proof.
  unfold ranks_within, int_range.
  assert (H30 : (2 ^ 30 = 1073741824)%Z) by done.
  assert (Hmax : INT_MAX = 2147483647%Z) by done.
  rewrite H30, Hmax. clear H30 Hmax.
  intros [Ha0 Ha1] [Hb0 Hb1] [Hc0 Hc1].
  unfold cmpSuffix.
  destruct (Z.eqb_spec (rank0 a) (rank0 b)),
           (Z.eqb_spec (rank0 b) (rank0 a)),
           (Z.eqb_spec (rank0 b) (rank0 c)),
           (Z.eqb_spec (rank0 a) (rank0 c)); lia.
Qed.

Lemma cmpSuffix_consistent_witness :
  let a := mkSuffix 3 1 0 in
  let b := mkSuffix 1 1 1 in
  let c := mkSuffix 0 2 (-1) in
  ranks_within (2 ^ 30) a ∧ ranks_within (2 ^ 30) b ∧
  ranks_within (2 ^ 30) c ∧
  int_range (rank0 a - rank0 b) ∧ int_range (rank1 a - rank1 b) ∧
  int_range (cmpSuffix a b) ∧
  ((cmpSuffix a b < 0)%Z ↔ (0 < cmpSuffix b a)%Z) ∧
  ((cmpSuffix a b ≤ 0)%Z → (cmpSuffix b c ≤ 0)%Z → (cmpSuffix a c ≤ 0)%Z) ∧
  (cmpSuffix a b = 0%Z ↔ rank0 a = rank0 b ∧ rank1 a = rank1 b) ∧
  ((cmpSuffix a b < 0)%Z ↔
   (rank0 a < rank0 b)%Z ∨ (rank0 a = rank0 b ∧ (rank1 a < rank1 b)%Z)).
Proof.
  intros a b c.
  assert (Ha : ranks_within (2 ^ 30) a) by (by vm_compute).
  assert (Hb : ranks_within (2 ^ 30) b) by (by vm_compute).
  assert (Hc : ranks_within (2 ^ 30) c) by (by vm_compute).
  split; [done |]. split; [done |]. split; [done |].
  apply (cmpSuffix_consistent a b c Ha Hb Hc).
Defined.

(** X8.  For any permutation of the offsets 0 .. N-1 handed to
    [buildLCPArray], sorted or not, with N at most 2^30: the output has N
    slots, every slot but the last is written and the last one is not;
    and in the iteration at each offset i the [while] of line 177 moves
    the carried k up to a k' with i + k' <= N, so that for every offset j
    the sums i + k and j + k it computes are at most [INT_MAX]. *)
Theorem buildLCPArray_written_cells (txt : list ascii) (SA : list nat)
    (p : nat) :
  (Z.of_nat (length txt) ≤ 2 ^ 30)%Z →
  SA ≡ₚ seq 0 (length txt) → p < length txt →
  length (buildLCPArray txt (length txt) SA) = length txt ∧
  (∃ c, buildLCPArray txt (length txt) SA !! p = Some c ∧
        (is_Some c ↔ p ≠ length txt - 1)) ∧
  ∀ i j, i < length txt → j < length txt →
    let k := (kasai_state txt SA i).1 in
    let k' := extend (length txt) txt (length txt) i j k in
    k ≤ k' ∧ i + k' ≤ length txt ∧ (Z.of_nat (j + k') ≤ INT_MAX)%Z.
Proof.
  intros Hn Hperm Hp.
  destruct (kasai_written txt SA Hperm (length txt) (Nat.le_refl _))
    as [Hlen Hcells].
  split; [done |]. split.
  - destruct (lookup_lt_is_Some_2 SA p) as [x Hx];
      [by rewrite (perm_seq_length SA _ Hperm) |].
    destruct (Hcells p x Hx) as (c & Hc & Hiff).
    exists c. split; [done |]. rewrite Hiff.
    pose proof (perm_seq_lookup_lt SA _ p x Hperm Hx). lia.
  - intros i j Hi Hj. cbn zeta.
    pose proof (kasai_carried_bound txt SA i ltac:(lia)) as Hk.
    destruct (extend_bound (length txt) txt (length txt) i j _ Hk)
      as [Hup Hend].
    assert (H30 : (2 ^ 30 = 1073741824)%Z) by done.
    assert (Hmax : INT_MAX = 2147483647%Z) by done.
    split; [done |]. split; [done |]. lia.
Qed.

Lemma buildLCPArray_written_cells_witness :
  (Z.of_nat (length banana) ≤ 2 ^ 30)%Z ∧
  [0; 1; 2; 3; 4; 5] ≡ₚ seq 0 (length banana) ∧ 5 < length banana ∧
  length (buildLCPArray banana (length banana) [0; 1; 2; 3; 4; 5])
  = length banana ∧
  (∃ c, buildLCPArray banana (length banana) [0; 1; 2; 3; 4; 5] !! 5
        = Some c ∧
        (is_Some c ↔ 5 ≠ length banana - 1)) ∧
  ∀ i j, i < length banana → j < length banana →
    let k := (kasai_state banana [0; 1; 2; 3; 4; 5] i).1 in
    let k' := extend (length banana) banana (length banana) i j k in
    k ≤ k' ∧ i + k' ≤ length banana ∧ (Z.of_nat (j + k') ≤ INT_MAX)%Z.
Proof.
  assert (Hn : (Z.of_nat (length banana) ≤ 2 ^ 30)%Z) by (by vm_compute).
  assert (Hperm : [0; 1; 2; 3; 4; 5] ≡ₚ seq 0 (length banana)) by done.
  assert (Hp : 5 < length banana) by (vm_compute; lia).
  split; [done |]. split; [done |]. split; [done |].
  apply (buildLCPArray_written_cells banana [0; 1; 2; 3; 4; 5] 5 Hn Hperm Hp).
Defined.

(** X9.  For any array of N offsets below N, sorted or not, with N at
    most 2^30, and any pattern of at most [INT_MAX] bytes (the bounds
    within which the [int]s of lines 195 and 199 do not overflow),
    [searchPattern] returns -1 or an offset o below N at which the
    pattern occurs: o + m <= N and the m bytes from o are the pattern. *)
Theorem searchPattern_sound_any_offsets (txt : list ascii) (SA : list nat)
    (pat : list ascii) :
  (Z.of_nat (length txt) ≤ 2 ^ 30)%Z →
  (Z.of_nat (length pat) ≤ INT_MAX)%Z →
  length SA = length txt → Forall (λ o, o < length txt) SA → NUL ∉ pat →
  searchPattern txt SA (length txt) pat = (-1)%Z ∨
  ∃ o, searchPattern txt SA (length txt) pat = Z.of_nat o ∧
       o < length txt ∧ o + length pat ≤ length txt ∧
       take (length pat) (drop o txt) = pat.
Proof. intros _ _. apply searchPattern_cases. Qed.

Lemma searchPattern_sound_any_offsets_witness :
  (Z.of_nat (length banana) ≤ 2 ^ 30)%Z ∧
  (Z.of_nat (length ana) ≤ INT_MAX)%Z ∧
  length [0; 1; 2; 3; 4; 5] = length banana ∧
  Forall (λ o, o < length banana) [0; 1; 2; 3; 4; 5] ∧ (NUL ∉ ana) ∧
  (searchPattern banana [0; 1; 2; 3; 4; 5] (length banana) ana = (-1)%Z ∨
   ∃ o, searchPattern banana [0; 1; 2; 3; 4; 5] (length banana) ana
        = Z.of_nat o ∧
        o < length banana ∧ o + length ana ≤ length banana ∧
        take (length ana) (drop o banana) = ana).
Proof.
  assert (Hlen : length [0; 1; 2; 3; 4; 5] = length banana) by done.
  assert (Hrange : Forall (λ o, o < length banana) [0; 1; 2; 3; 4; 5])
    by (repeat constructor; vm_compute; lia).
  assert (Hpat : NUL ∉ ana).
  { unfold ana. rewrite !not_elem_of_cons.
    repeat split; try done. apply not_elem_of_nil. }
  assert (Hn : (Z.of_nat (length banana) ≤ 2 ^ 30)%Z) by (by vm_compute).
  assert (Hm : (Z.of_nat (length ana) ≤ INT_MAX)%Z) by (by vm_compute).
  split; [done |]. split; [done |].
  split; [done |]. split; [done |]. split; [done |].
  apply (searchPattern_sound_any_offsets banana _ ana Hn Hm Hlen Hrange Hpat).
Defined.

(** X10.  A pattern longer than the text is never found: for any array of
    N offsets below N, with N at most 2^30, and any pattern of more than N
    and at most [INT_MAX] bytes (the bounds within which the [int]s of
    lines 195 and 199 do not overflow), [searchPattern] returns -1. *)
Theorem searchPattern_long_pattern (txt : list ascii) (SA : list nat)
    (pat : list ascii) :
  (Z.of_nat (length txt) ≤ 2 ^ 30)%Z →
  (Z.of_nat (length pat) ≤ INT_MAX)%Z →
  length SA = length txt → Forall (λ o, o < length txt) SA → NUL ∉ pat →
  length txt < length pat →
  searchPattern txt SA (length txt) pat = (-1)%Z.
Proof.
  intros _ _ Hlen Hrange Hpat Hlong.
  destruct (searchPattern_cases txt SA pat Hlen Hrange Hpat)
    as [Hnone | (o & _ & _ & Ho & _)]; [done | lia].
Qed.

Lemma searchPattern_long_pattern_witness :
  (Z.of_nat (length ana) ≤ 2 ^ 30)%Z ∧
  (Z.of_nat (length banana) ≤ INT_MAX)%Z ∧
  length [2; 1; 0] = length ana ∧ Forall (λ o, o < length ana) [2; 1; 0] ∧
  (NUL ∉ banana) ∧ length ana < length banana ∧
  searchPattern ana [2; 1; 0] (length ana) banana = (-1)%Z.
Proof.
  assert (Hlen : length [2; 1; 0] = length ana) by done.
  assert (Hrange : Forall (λ o, o < length ana) [2; 1; 0])
    by (repeat constructor; vm_compute; lia).
  assert (Hpat : NUL ∉ banana).
  { unfold banana. rewrite !not_elem_of_cons.
    repeat split; try done. apply not_elem_of_nil. }
  assert (Hlong : length ana < length banana) by (vm_compute; lia).
  assert (Hn : (Z.of_nat (length ana) ≤ 2 ^ 30)%Z) by (by vm_compute).
  assert (Hm : (Z.of_nat (length banana) ≤ INT_MAX)%Z) by (by vm_compute).
  split; [done |]. split; [done |].
  split; [done |]. split; [done |]. split; [done |]. split; [done |].
  apply (searchPattern_long_pattern ana _ banana Hn Hm Hlen Hrange Hpat
           Hlong).
Defined.

(** X11.  On text of at most 2^29 bytes (the lengths for which the [int]s
    of line 112 do not overflow) that read as non-negative [char]s, the
    result of [buildSuffixArray] is the one valid suffix array of the
    text: it does not depend on how [qsort] orders elements that compare
    equal. *)
Theorem buildSuffixArray_unique `{CImpl} (txt : list ascii)
    (SA : list nat) :
  (Z.of_nat (length txt) ≤ 2 ^ 29)%Z →
  nonneg_chars txt → valid_sa txt SA →
  buildSuffixArray txt (length txt) = SA.
Proof.
  intros _ Hnn Hvalid.
  by apply (valid_sa_unique txt), Hvalid; apply buildSuffixArray_valid.
Qed.

Lemma buildSuffixArray_unique_witness :
  (Z.of_nat (length banana) ≤ 2 ^ 29)%Z ∧
  @nonneg_chars impl_signed banana ∧ valid_sa banana banana_sa ∧
  @buildSuffixArray impl_signed banana (length banana) = banana_sa.
Proof.
  assert (Hn : (Z.of_nat (length banana) ≤ 2 ^ 29)%Z) by (by vm_compute).
  split; [done |].
  split; [apply banana_nonneg |]. split; [apply banana_valid |].
  apply (@buildSuffixArray_unique impl_signed banana banana_sa
           Hn banana_nonneg banana_valid).
Defined.

(** X12.  For n up to 2^30, on every text, array and pattern, the loop
    of [searchPattern] returns after at most floor(log2 n) + 1 probes:
    the run with its probes recorded ends before the iterations allowed
    are used up, with the value [searchPattern] returns; every probe is
    made on a range 0 <= low <= high < n, so [mid] is a position of the
    array, and the sum [low + high] is at most [INT_MAX]. *)
Theorem searchPattern_log_probes (txt : list ascii) (SA : list nat)
    (n : nat) (pat : list ascii) :
  (Z.of_nat n ≤ 2 ^ 30)%Z →
  ∃ probes,
    search_trace (S n) txt SA pat (length pat) 0%Z (Z.of_nat n - 1)%Z
    = Some (probes, searchPattern txt SA n pat) ∧
    length probes ≤ Nat.log2 n + 1 ∧
    Forall (λ lh, (0 ≤ lh.1 ∧ lh.1 ≤ lh.2 ∧ lh.2 < Z.of_nat n ∧
                   lh.1 + lh.2 ≤ INT_MAX)%Z) probes.
Proof.
  intros Hn.
  destruct (search_trace_runs txt SA pat (length pat) n (S n)
              (Nat.log2 n + 1) 0 (Z.of_nat n - 1))
    as (probes & Hrun & Hlen & Hall); [lia | lia | lia | |].
  { destruct n as [| n]; [simpl; lia |].
    pose proof (Nat.log2_spec (S n) ltac:(lia)) as [_ Hlog].
    rewrite Nat.add_1_r. lia. }
  exists probes. split; [done |]. split; [done |].
  assert (H30 : (2 ^ 30 = 1073741824)%Z) by done.
  assert (Hmax : INT_MAX = 2147483647%Z) by done.
  eapply Forall_impl; [exact Hall |].
  intros [low high]; simpl. lia.
Qed.

Lemma searchPattern_log_probes_witness :
  (Z.of_nat 6 ≤ 2 ^ 30)%Z ∧
  ∃ probes,
    search_trace 7 banana banana_sa ana (length ana) 0%Z (Z.of_nat 6 - 1)%Z
    = Some (probes, searchPattern banana banana_sa 6 ana) ∧
    length probes ≤ Nat.log2 6 + 1 ∧
    Forall (λ lh, (0 ≤ lh.1 ∧ lh.1 ≤ lh.2 ∧ lh.2 < Z.of_nat 6 ∧
                   lh.1 + lh.2 ≤ INT_MAX)%Z) probes.
Proof.
  assert (Hn : (Z.of_nat 6 ≤ 2 ^ 30)%Z) by (by vm_compute).
  split; [done |].
  apply (searchPattern_log_probes banana banana_sa 6 ana Hn).
Defined.

(** ** [main] *)

Lemma searchPattern_built_exact_aux `{CImpl} (txt pat : list ascii) :
  nonneg_chars txt → NUL ∉ pat →
  searchPattern txt (buildSuffixArray txt (length txt)) (length txt) pat
    ≠ (-1)%Z
  ↔ ∃ o, o < length txt ∧ take (length pat) (drop o txt) = pat.
Proof.
  intros Hnn Hpat.
  pose proof (buildSuffixArray_valid txt Hnn) as Hvalid.
  set (SA := buildSuffixArray txt (length txt)) in *.
  split.
  - intros Hfound.
    destruct (search_loop_sound txt SA pat (S (length txt)) 0
                (Z.of_nat (length txt) - 1))
      as [Hnone | (p & Hp & Hres & _)]; [lia | lia | done |].
    destruct (SA_lookup txt SA Hvalid p Hp) as (o & Ho & _ & Hnth).
    exists o. split; [done |].
    unfold res_at in Hres. rewrite Hnth in Hres.
    by apply strncmp_zero in Hres.
  - intros (o & Ho & Hocc).
    pose proof (searchPattern_complete txt SA pat Hvalid Hpat o Ho Hocc). lia.
Qed.

Lemma read_while_Forall (f : ascii → bool) (s : list ascii) :
  Forall (λ c, f c = true) (read_while f s).
Proof.
  induction s as [| c s IH]; simpl; [constructor |].
  destruct (f c) eqn:Hc; by constructor.
Qed.

Lemma c_string_no_NUL (buf : list ascii) : NUL ∉ c_string buf.
Proof.
  intros Hin.
  pose proof (read_while_Forall (λ c, negb (Ascii.eqb c NUL)) buf) as Hall.
  rewrite Forall_forall in Hall. specialize (Hall NUL Hin).
  by rewrite Ascii.eqb_refl in Hall.
Qed.

Lemma mapM_fmap_total {A B : Type} (f : A → option B) (g : A → B)
    (l : list A) :
  (∀ x, x ∈ l → f x = Some (g x)) → mapM f l = Some (g <$> l).
Proof.
  intros Hf. apply mapM_Some_2.
  induction l as [| x l IH]; simpl; constructor.
  - apply Hf, list_elem_of_here.
  - apply IH. intros y Hy. by apply Hf, list_elem_of_further.
Qed.

Lemma suffix_lines_app (l k : list output) :
  suffix_lines (l ++ k) = suffix_lines l ++ suffix_lines k.
Proof. apply omap_app. Qed.

Lemma lcp_lines_app (l k : list output) :
  lcp_lines (l ++ k) = lcp_lines l ++ lcp_lines k.
Proof. apply omap_app. Qed.

Lemma suffix_lines_SuffixLine (a : nat → nat) (b : nat → list ascii)
    (l : list nat) :
  suffix_lines ((λ i, SuffixLine (a i) (b i)) <$> l)
  = (λ i, (a i, b i)) <$> l.
Proof. induction l as [| x l IH]; [done |]. simpl. by f_equal. Qed.

Lemma suffix_lines_LcpLine (v : nat → nat) (l : list nat) :
  suffix_lines ((λ i, LcpLine i (v i)) <$> l) = [].
Proof. by induction l. Qed.

Lemma lcp_lines_SuffixLine (a : nat → nat) (b : nat → list ascii)
    (l : list nat) :
  lcp_lines ((λ i, SuffixLine (a i) (b i)) <$> l) = [].
Proof. by induction l. Qed.

Lemma lcp_lines_LcpLine (v : nat → nat) (l : list nat) :
  lcp_lines ((λ i, LcpLine i (v i)) <$> l) = (λ i, (i, v i)) <$> l.
Proof. induction l as [| x l IH]; [done |]. simpl. by f_equal. Qed.

Section Main.
Context `{CImpl}.
Variable stdin buf rest pbuf rest' : list ascii.
Hypothesis Hscan : scanf_s 1000 stdin = Some (buf, rest).
Hypothesis Hpscan : scanf_s 100 rest = Some (pbuf, rest').

#[local] Abbreviation txt := (c_string buf).
#[local] Abbreviation pat := (c_string pbuf).
#[local] Abbreviation SA := (buildSuffixArray txt (length txt)).
#[local] Abbreviation LCP := (buildLCPArray txt (length txt) SA).

(** Every cell [main] prints has been written. *)
Lemma main_lcp_read (i : nat) :
  i ∈ seq 0 (length txt - 1) → ∃ v, LCP !! i = Some (Some v).
Proof.
  intros Hi%elem_of_seq.
  destruct (kasai_written txt SA (buildSuffixArray_perm txt (length txt))
              (length txt) (Nat.le_refl _)) as [_ Hcells].
  destruct (lookup_lt_is_Some_2 SA i) as [x Hx].
  { rewrite (perm_seq_length SA _ (buildSuffixArray_perm txt _)). lia. }
  destruct (Hcells i x Hx) as (c & Hc & Hiff).
  pose proof (perm_seq_lookup_lt SA _ i x
                (buildSuffixArray_perm txt _) Hx).
  destruct c as [v |]; [by exists v |].
  destruct (proj2 Hiff) as [? ?]; [lia | done].
Qed.

(** The run of [main] on input that [scanf] accepts twice. *)
Lemma main_run :
  main stdin
  = Some ([PromptText; SuffixArrayHeader]
          ++ ((λ i, SuffixLine (nth i SA 0) (drop (nth i SA 0) txt))
                <$> seq 0 (length txt))
          ++ [LcpHeader]
          ++ ((λ i, LcpLine i (default 0 (mjoin (LCP !! i))))
                <$> seq 0 (length txt - 1))
          ++ [PromptPattern;
              if (searchPattern txt SA (length txt) pat =? -1)%Z
              then PatternNotFound
              else PatternFound (searchPattern txt SA (length txt) pat)],
          0%Z).
Proof.
  unfold main. rewrite Hscan. cbn [mbind option_bind]. cbn zeta.
  rewrite (mapM_fmap_total _
             (λ i, LcpLine i (default 0 (mjoin (LCP !! i))))).
  - cbn [mbind option_bind]. by rewrite Hpscan.
  - intros i Hi. destruct (main_lcp_read i Hi) as [v ->]. done.
Qed.
End Main.

Lemma fmap_nth_seq {A : Type} (l : list A) (d : A) :
  (λ i, nth i l d) <$> seq 0 (length l) = l.
Proof.
  apply list_eq. intros i. rewrite list_lookup_fmap.
  destruct (decide (i < length l)) as [Hi | Hi].
  - rewrite lookup_seq_lt by done. simpl.
    destruct (lookup_lt_is_Some_2 l i Hi) as [x Hx].
    by rewrite Hx, (nth_lookup_Some _ _ d _ Hx).
  - rewrite lookup_seq_ge, lookup_ge_None_2 by lia. done.
Qed.

(** X13.  [main] has a defined run exactly when both calls of [scanf]
    read a token that fits its buffer, on every implementation and for
    every text: whatever [buildSuffixArray] returned, each [lcp[i]] that
    is printed was written by [buildLCPArray]. *)
Theorem main_defined `{CImpl} (stdin : list ascii) :
  is_Some (main stdin) ↔
  ∃ buf rest pbuf rest',
    scanf_s 1000 stdin = Some (buf, rest) ∧
    scanf_s 100 rest = Some (pbuf, rest').
Proof.
  split.
  - unfold main.
    destruct (scanf_s 1000 stdin) as [[buf rest] |]; [| by intros [? ?]].
    cbn [mbind option_bind]. cbn zeta.
    destruct (mapM _ _); [| by intros [? ?]]. cbn [mbind option_bind].
    destruct (scanf_s 100 rest) as [[pbuf rest'] |] eqn:Hpscan;
      [| by intros [? ?]].
    intros _. by exists buf, rest, pbuf, rest'.
  - intros (buf & rest & pbuf & rest' & Hscan & Hpscan).
    by rewrite (main_run stdin buf rest pbuf rest' Hscan Hpscan).
Qed.

(** X14.  On every implementation and for every text, when [main] prints
    "Pattern found at index pos", the pattern read by the second [scanf]
    does occur in the text at offset pos. *)
Theorem main_found_sound `{CImpl} (stdin buf rest pbuf rest' : list ascii) :
  scanf_s 1000 stdin = Some (buf, rest) →
  scanf_s 100 rest = Some (pbuf, rest') →
  ∃ out, main stdin = Some (out, 0%Z) ∧
    ∀ pos, PatternFound pos ∈ out →
      ∃ o, pos = Z.of_nat o ∧
           o + length (c_string pbuf) ≤ length (c_string buf) ∧
           take (length (c_string pbuf)) (drop o (c_string buf))
           = c_string pbuf.
Proof.
  intros Hscan Hpscan.
  eexists. split; [apply (main_run stdin buf rest pbuf rest' Hscan Hpscan) |].
  intros pos Hin.
  set (txt := c_string buf) in *. set (pat := c_string pbuf) in *.
  set (SA := buildSuffixArray txt (length txt)) in *.
  pose proof (buildSuffixArray_perm txt (length txt)) as Hperm.
  fold SA in Hperm.
  rewrite !elem_of_app, !elem_of_cons, !list_elem_of_fmap in Hin.
  destruct Hin as [[? | [? | ?%elem_of_nil]] | [(? & ? & _)
    | [[? | ?%elem_of_nil] | [(? & ? & _) | [? | [Hv | ?%elem_of_nil]]]]]];
    try done.
  destruct (Z.eqb_spec (searchPattern txt SA (length txt) pat) (-1))
    as [? | Hne]; [done |]. injection Hv as ->.
  destruct (searchPattern_cases txt SA pat) as [? | (o & Ho & _ & Hlen & Hocc)];
    [by apply perm_seq_length | | apply c_string_no_NUL | done |].
  - apply Forall_forall. intros o Ho. by apply (perm_seq_elem SA _ o Hperm).
  - by exists o.
Qed.

Lemma main_found_sound_witness :
  scanf_s 1000 banana_input = Some (banana, "010"%char :: ana ++ ["010"%char]) ∧
  scanf_s 100 ("010"%char :: ana ++ ["010"%char]) = Some (ana, ["010"%char]) ∧
  ∃ out, @main impl_signed banana_input = Some (out, 0%Z) ∧
    ∀ pos, PatternFound pos ∈ out →
      ∃ o, pos = Z.of_nat o ∧
           o + length (c_string ana) ≤ length (c_string banana) ∧
           take (length (c_string ana)) (drop o (c_string banana))
           = c_string ana.
Proof.
  assert (Hscan : scanf_s 1000 banana_input
                  = Some (banana, "010"%char :: ana ++ ["010"%char]))
    by (by vm_compute).
  assert (Hpscan : scanf_s 100 ("010"%char :: ana ++ ["010"%char])
                   = Some (ana, ["010"%char])) by (by vm_compute).
  split; [done |]. split; [done |].
  apply (@main_found_sound impl_signed _ _ _ _ _ Hscan Hpscan).
Defined.

(** X15.  On text whose bytes read as non-negative [char]s, [main] prints
    "Pattern not found" exactly when the pattern occurs at no offset of
    the text. *)
Theorem main_not_found_exact `{CImpl}
    (stdin buf rest pbuf rest' : list ascii) :
  scanf_s 1000 stdin = Some (buf, rest) →
  scanf_s 100 rest = Some (pbuf, rest') →
  nonneg_chars (c_string buf) →
  ∃ out, main stdin = Some (out, 0%Z) ∧
    (PatternNotFound ∈ out ↔
     ∀ o, o < length (c_string buf) →
       take (length (c_string pbuf)) (drop o (c_string buf))
       ≠ c_string pbuf).
Proof.
  intros Hscan Hpscan Hnn.
  eexists. split; [apply (main_run stdin buf rest pbuf rest' Hscan Hpscan) |].
  set (txt := c_string buf) in *. set (pat := c_string pbuf) in *.
  set (SA := buildSuffixArray txt (length txt)) in *.
  pose proof (searchPattern_built_exact_aux txt pat Hnn (c_string_no_NUL pbuf))
    as Hexact. fold SA in Hexact.
  rewrite !elem_of_app, !elem_of_cons, !list_elem_of_fmap.
  destruct (Z.eqb_spec (searchPattern txt SA (length txt) pat) (-1))
    as [Heq | Hne].
  - split.
    + intros _ o Ho Hocc. apply Hexact; [by exists o | done].
    + intros _. do 4 right. right. by left.
  - split.
    + intros [[? | [? | ?%elem_of_nil]] | [(? & ? & _)
        | [[? | ?%elem_of_nil] | [(? & ? & _)
        | [? | [? | ?%elem_of_nil]]]]]]; done.
    + intros Hnone. exfalso.
      destruct (proj1 Hexact Hne) as (o & Ho & Hocc). by apply (Hnone o).
Qed.

Lemma main_not_found_exact_witness :
  scanf_s 1000 banana_input = Some (banana, "010"%char :: ana ++ ["010"%char]) ∧
  scanf_s 100 ("010"%char :: ana ++ ["010"%char]) = Some (ana, ["010"%char]) ∧
  @nonneg_chars impl_signed (c_string banana) ∧
  ∃ out, @main impl_signed banana_input = Some (out, 0%Z) ∧
    (PatternNotFound ∈ out ↔
     ∀ o, o < length (c_string banana) →
       take (length (c_string ana)) (drop o (c_string banana))
       ≠ c_string ana).
Proof.
  assert (Hscan : scanf_s 1000 banana_input
                  = Some (banana, "010"%char :: ana ++ ["010"%char]))
    by (by vm_compute).
  assert (Hpscan : scanf_s 100 ("010"%char :: ana ++ ["010"%char])
                   = Some (ana, ["010"%char])) by (by vm_compute).
  assert (Hnn : @nonneg_chars impl_signed (c_string banana))
    by apply banana_nonneg.
  split; [done |]. split; [done |]. split; [done |].
  apply (@main_not_found_exact impl_signed _ _ _ _ _ Hscan Hpscan Hnn).
Defined.


Lemma main_output_lines (a : nat → nat) (b : nat → list ascii)
    (v : nat → nat) (n m : nat) (verdict : output) :
  (∀ o s, verdict ≠ SuffixLine o s) → (∀ i w, verdict ≠ LcpLine i w) →
  suffix_lines ([PromptText; SuffixArrayHeader]
                ++ ((λ i, SuffixLine (a i) (b i)) <$> seq 0 n)
                ++ [LcpHeader] ++ ((λ i, LcpLine i (v i)) <$> seq 0 m)
                ++ [PromptPattern; verdict])
  = (λ i, (a i, b i)) <$> seq 0 n ∧
  lcp_lines ([PromptText; SuffixArrayHeader]
             ++ ((λ i, SuffixLine (a i) (b i)) <$> seq 0 n)
             ++ [LcpHeader] ++ ((λ i, LcpLine i (v i)) <$> seq 0 m)
             ++ [PromptPattern; verdict])
  = (λ i, (i, v i)) <$> seq 0 m.
Proof.
  intros Hs Hl.
  rewrite !suffix_lines_app, !lcp_lines_app, suffix_lines_SuffixLine,
    suffix_lines_LcpLine, lcp_lines_SuffixLine, lcp_lines_LcpLine.
  assert (suffix_lines [PromptPattern; verdict] = []) as ->
    by (destruct verdict as [| | o s | | | | |]; try done;
        by destruct (Hs o s)).
  assert (lcp_lines [PromptPattern; verdict] = []) as ->
    by (destruct verdict as [| | | | i w | | |]; try done;
        by destruct (Hl i w)).
  cbn. by rewrite !app_nil_r.
Qed.

(** X16.  On every implementation and for every text of N bytes, [main]
    prints N suffix lines whose offsets are a permutation of 0 .. N-1,
    each followed by the suffix of the text at that offset, and then the
    N-1 LCP lines numbered 0 .. N-2 (none when N = 0). *)
Theorem main_lines `{CImpl} (stdin buf rest pbuf rest' : list ascii) :
  scanf_s 1000 stdin = Some (buf, rest) →
  scanf_s 100 rest = Some (pbuf, rest') →
  ∃ out, main stdin = Some (out, 0%Z) ∧
    (suffix_lines out).*1 ≡ₚ seq 0 (length (c_string buf)) ∧
    (∀ o s, (o, s) ∈ suffix_lines out → s = drop o (c_string buf)) ∧
    (lcp_lines out).*1 = seq 0 (length (c_string buf) - 1).
Proof.
  intros Hscan Hpscan.
  eexists. split; [apply (main_run stdin buf rest pbuf rest' Hscan Hpscan) |].
  set (txt := c_string buf). set (SA := buildSuffixArray txt (length txt)).
  match goal with
  | |- context [_ ++ [PromptPattern; ?e]] => set (verdict := e)
  end.
  assert (Hv1 : ∀ o s, verdict ≠ SuffixLine o s)
    by (intros o s; subst verdict; by destruct (_ =? _)%Z).
  assert (Hv2 : ∀ i w, verdict ≠ LcpLine i w)
    by (intros i w; subst verdict; by destruct (_ =? _)%Z).
  destruct (main_output_lines (λ i, nth i SA 0)
              (λ i, drop (nth i SA 0) txt)
              (λ i, default 0 (mjoin (buildLCPArray txt (length txt) SA !! i)))
              (length txt) (length txt - 1) verdict Hv1 Hv2) as [-> ->].
  pose proof (buildSuffixArray_perm txt (length txt)) as Hperm.
  split; [| split].
  - rewrite <- list_fmap_compose.
    rewrite <- (perm_seq_length _ _ Hperm) at 1.
    change (fst ∘ _) with (λ i, nth i (buildSuffixArray txt (length txt)) 0).
    by rewrite fmap_nth_seq.
  - by intros o s (i & [= -> ->] & _)%list_elem_of_fmap.
  - rewrite <- list_fmap_compose. apply list_fmap_id.
Qed.

Lemma main_lines_witness :
  scanf_s 1000 banana_input = Some (banana, "010"%char :: ana ++ ["010"%char]) ∧
  scanf_s 100 ("010"%char :: ana ++ ["010"%char]) = Some (ana, ["010"%char]) ∧
  ∃ out, @main impl_signed banana_input = Some (out, 0%Z) ∧
    (suffix_lines out).*1 ≡ₚ seq 0 (length (c_string banana)) ∧
    (∀ o s, (o, s) ∈ suffix_lines out → s = drop o (c_string banana)) ∧
    (lcp_lines out).*1 = seq 0 (length (c_string banana) - 1).
Proof.
  assert (Hscan : scanf_s 1000 banana_input
                  = Some (banana, "010"%char :: ana ++ ["010"%char]))
    by (by vm_compute).
  assert (Hpscan : scanf_s 100 ("010"%char :: ana ++ ["010"%char])
                   = Some (ana, ["010"%char])) by (by vm_compute).
  split; [done |]. split; [done |].
  apply (@main_lines impl_signed _ _ _ _ _ Hscan Hpscan).
Defined.

(** X17.  On text whose bytes read as non-negative [char]s, the suffix
    lines [main] prints ascend in lexicographic order, and the LCP line
    number i carries the length of the longest common prefix of the
    suffixes printed on the suffix lines i and i+1. *)
Theorem main_sorted_lines `{CImpl}
    (stdin buf rest pbuf rest' : list ascii) :
  scanf_s 1000 stdin = Some (buf, rest) →
  scanf_s 100 rest = Some (pbuf, rest') →
  nonneg_chars (c_string buf) →
  ∃ out, main stdin = Some (out, 0%Z) ∧
    ∀ i o1 s1 o2 s2,
      suffix_lines out !! i = Some (o1, s1) →
      suffix_lines out !! S i = Some (o2, s2) →
      lex_le s1 s2 ∧ lcp_lines out !! i = Some (i, lcp_len s1 s2).
Proof.
  intros Hscan Hpscan Hnn.
  eexists. split; [apply (main_run stdin buf rest pbuf rest' Hscan Hpscan) |].
  set (txt := c_string buf) in *.
  set (SA := buildSuffixArray txt (length txt)).
  match goal with
  | |- context [_ ++ [PromptPattern; ?e]] => set (verdict := e)
  end.
  assert (Hv1 : ∀ o s, verdict ≠ SuffixLine o s)
    by (intros o s; subst verdict; by destruct (_ =? _)%Z).
  assert (Hv2 : ∀ i w, verdict ≠ LcpLine i w)
    by (intros i w; subst verdict; by destruct (_ =? _)%Z).
  destruct (main_output_lines (λ i, nth i SA 0)
              (λ i, drop (nth i SA 0) txt)
              (λ i, default 0 (mjoin (buildLCPArray txt (length txt) SA !! i)))
              (length txt) (length txt - 1) verdict Hv1 Hv2) as [-> ->].
  pose proof (buildSuffixArray_valid txt Hnn) as Hvalid. fold SA in Hvalid.
  intros i o1 s1 o2 s2 H1 H2.
  rewrite list_lookup_fmap in H1, H2.
  destruct (seq 0 (length txt) !! i) as [i' |] eqn:Hi; [| done].
  destruct (seq 0 (length txt) !! S i) as [i'' |] eqn:HSi; [| done].
  apply lookup_seq in Hi as [-> Hi]. apply lookup_seq in HSi as [-> HSi].
  simpl in H1, H2. injection H1 as <- <-. injection H2 as <- <-.
  destruct (SA_lookup txt SA Hvalid i Hi) as (x & _ & Hx & Hnx).
  destruct (SA_lookup txt SA Hvalid (S i) HSi) as (y & _ & Hy & Hny).
  split.
  - rewrite Hnx, Hny. by apply (proj2 Hvalid i).
  - rewrite list_lookup_fmap, lookup_seq_lt by lia. simpl.
    rewrite (buildLCPArray_cell txt SA Hvalid i Hi).
    by rewrite decide_True by lia.
Qed.

Lemma main_sorted_lines_witness :
  scanf_s 1000 banana_input = Some (banana, "010"%char :: ana ++ ["010"%char]) ∧
  scanf_s 100 ("010"%char :: ana ++ ["010"%char]) = Some (ana, ["010"%char]) ∧
  @nonneg_chars impl_signed (c_string banana) ∧
  ∃ out, @main impl_signed banana_input = Some (out, 0%Z) ∧
    ∀ i o1 s1 o2 s2,
      suffix_lines out !! i = Some (o1, s1) →
      suffix_lines out !! S i = Some (o2, s2) →
      lex_le s1 s2 ∧ lcp_lines out !! i = Some (i, lcp_len s1 s2).
Proof.
  assert (Hscan : scanf_s 1000 banana_input
                  = Some (banana, "010"%char :: ana ++ ["010"%char]))
    by (by vm_compute).
  assert (Hpscan : scanf_s 100 ("010"%char :: ana ++ ["010"%char])
                   = Some (ana, ["010"%char])) by (by vm_compute).
  assert (Hnn : @nonneg_chars impl_signed (c_string banana))
    by apply banana_nonneg.
  split; [done |]. split; [done |]. split; [done |].
  apply (@main_sorted_lines impl_signed _ _ _ _ _ Hscan Hpscan Hnn).
Defined.

(** ** The rounds of the doubling loop *)

Lemma doubling_loop_fuel `{CImpl} (n fuel : nat) :
  ∀ (fuel' k : nat) (sufs : list Suffix),
    2 * n ≤ 2 ^ fuel * k → 2 * n ≤ 2 ^ fuel' * k →
    doubling_loop fuel k n sufs = doubling_loop fuel' k n sufs.
Proof.
  induction fuel as [| fuel IH]; intros fuel' k sufs Hf Hf'.
  - simpl in Hf. destruct fuel' as [| fuel']; [done |].
    rewrite doubling_loop_S.
    destruct (Nat.ltb_spec k (2 * n)); [lia | done].
  - destruct fuel' as [| fuel'].
    + simpl in Hf'. rewrite doubling_loop_S.
      destruct (Nat.ltb_spec k (2 * n)); [lia | done].
    + rewrite !doubling_loop_S.
      destruct (Nat.ltb_spec k (2 * n)); [| done].
      rewrite Nat.pow_succ_r' in Hf, Hf'. apply IH; lia.
Qed.

(** Every round doubles [k]: when [2 ^ c * k] reaches [2 * n] the loop
    ends after at most [c] rounds, run with k, 2k, 4k, ..., all below
    [2 * n], and before the iterations allowed are used up. *)
Lemma doubling_trace_runs `{CImpl} (n fuel : nat) :
  ∀ (c k : nat) (sufs : list Suffix),
    2 * n ≤ 2 ^ c * k → c < fuel →
    ∃ ks,
      doubling_trace fuel k n sufs
      = Some (ks, doubling_loop fuel k n sufs) ∧
      length ks ≤ c ∧
      ks = (λ j, k * 2 ^ j) <$> seq 0 (length ks) ∧
      Forall (λ k', k' < 2 * n) ks.
Proof.
  induction fuel as [| fuel IH]; intros c k sufs Hc Hf; [lia |].
  cbn [doubling_trace]. rewrite doubling_loop_S.
  destruct (Nat.ltb_spec k (2 * n)) as [Hlt | Hge].
  2: { exists []. split; [done |]. split; [simpl; lia |].
       split; [done | constructor]. }
  destruct c as [| c]; [simpl in Hc; lia |].
  rewrite Nat.pow_succ_r' in Hc.
  destruct (IH c (2 * k) (doubling_step k n sufs))
    as (ks & -> & Hlen & Hks & Hall); [lia | lia |].
  exists (k :: ks). split; [done |]. split; [simpl; lia |].
  split; [| by constructor].
  cbn [length seq fmap list_fmap]. f_equal; [simpl; lia |].
  rewrite <- fmap_S_seq, <- list_fmap_compose.
  rewrite Hks at 1. apply list_fmap_ext. intros _ j _. simpl. lia.
Qed.

(** X18.  For n up to 2^29 the doubling loop of [buildSuffixArray] runs at
    most floor(log2 n) rounds of re-ranking and sorting, on every text
    and every implementation: the run with its rounds recorded ends
    before the iterations allowed are used up, with the array
    [buildSuffixArray] returns the offsets of; the rounds ran with
    k = 4, 8, 16, ..., and for each of them [k *= 2] is at most
    [INT_MAX]. *)
Theorem buildSuffixArray_log_rounds `{CImpl} (txt : list ascii) (n : nat) :
  (Z.of_nat n ≤ 2 ^ 29)%Z →
  ∃ ks out,
    doubling_trace (S n) 4 n (seed_sorted txt n) = Some (ks, out) ∧
    buildSuffixArray txt n = index <$> out ∧
    length ks ≤ Nat.log2 n ∧
    ks = (λ j, 4 * 2 ^ j) <$> seq 0 (length ks) ∧
    Forall (λ k, (Z.of_nat (2 * k) ≤ INT_MAX)%Z) ks.
Proof.
  intros Hn.
  assert (Hlog : 2 * n ≤ 2 ^ Nat.log2 n * 4).
  { destruct n as [| n]; [simpl; lia |].
    pose proof (Nat.log2_spec (S n) ltac:(lia)) as [_ Hlog].
    rewrite Nat.pow_succ_r' in Hlog. lia. }
  assert (Hfuel : Nat.log2 n < S n).
  { destruct n as [| n]; [cbv; lia |].
    pose proof (Nat.log2_lt_lin (S n) ltac:(lia)). lia. }
  destruct (doubling_trace_runs n (S n) (Nat.log2 n) 4 (seed_sorted txt n)
              Hlog Hfuel) as (ks & Hrun & Hlen & Hks & Hall).
  exists ks, (doubling_loop (S n) 4 n (seed_sorted txt n)).
  split; [done |]. split.
  { unfold buildSuffixArray. f_equal. apply doubling_loop_fuel.
    - pose proof (pow2_gt n). lia.
    - pose proof (pow2_gt n). rewrite Nat.pow_succ_r'. lia. }
  split; [done |]. split; [done |].
  assert (H29 : (2 ^ 29 = 536870912)%Z) by done.
  assert (Hmax : INT_MAX = 2147483647%Z) by done.
  eapply Forall_impl; [exact Hall |]. intros k Hk. simpl in Hk. lia.
Qed.

Lemma buildSuffixArray_log_rounds_witness :
  (Z.of_nat 6 ≤ 2 ^ 29)%Z ∧
  ∃ ks out,
    @doubling_trace impl_signed 7 4 6 (@seed_sorted impl_signed banana 6)
    = Some (ks, out) ∧
    @buildSuffixArray impl_signed banana 6 = index <$> out ∧
    length ks ≤ Nat.log2 6 ∧
    ks = (λ j, 4 * 2 ^ j) <$> seq 0 (length ks) ∧
    Forall (λ k, (Z.of_nat (2 * k) ≤ INT_MAX)%Z) ks.
Proof.
  assert (Hn : (Z.of_nat 6 ≤ 2 ^ 29)%Z) by (by vm_compute).
  split; [done |].
  apply (@buildSuffixArray_log_rounds impl_signed banana 6 Hn).
Defined.


(** ** The re-ranking pass on any array *)

Lemma ranked_step (l : list Suffix) :
  ∀ (r : Z) (x : Suffix) (i : nat) (s t s' t' : Suffix),
    (x :: l) !! i = Some s → (x :: l) !! S i = Some t →
    (mkSuffix (index x) r (rank1 x)
       :: rerank_from r (rank0 x) (rank1 x) l) !! i = Some s' →
    (mkSuffix (index x) r (rank1 x)
       :: rerank_from r (rank0 x) (rank1 x) l) !! S i = Some t' →
    index t' = index t ∧ rank1 t' = rank1 t ∧
    rank0 t' = if decide (rank0 t = rank0 s ∧ rank1 t = rank1 s)
               then rank0 s' else (rank0 s' + 1)%Z.
Proof.
  induction l as [| y l IH]; intros r x i s t s' t' Hs Ht Hs' Ht'.
  - by destruct i.
  - rewrite rerank_from_cons in Hs', Ht'. cbn zeta in Hs', Ht'.
    destruct i as [| i].
    + simpl in Hs, Ht, Hs', Ht'.
      injection Hs as <-. injection Ht as <-.
      injection Hs' as <-. injection Ht' as <-. simpl.
      split; [done |]. split; [done |].
      destruct (Z.eqb_spec (rank0 y) (rank0 x)),
               (Z.eqb_spec (rank1 y) (rank1 x)); simpl;
        first [ by rewrite decide_True
              | by rewrite decide_False by (by intros [? ?]) ].
    + exact (IH _ y i s t s' t' Hs Ht Hs' Ht').
Qed.

(** X19.  The re-ranking pass, on any array: offsets and [rank[1]] are
    kept, the first element gets rank 0, and every other element gets the
    new rank of its predecessor when its old rank pair equals the
    predecessor's old pair, and that rank plus one otherwise; overwriting
    [rank[0]] in place does not disturb the comparison. *)
Theorem rerank_dense (l : list Suffix) :
  (∀ s', rerank l !! 0 = Some s' → rank0 s' = 0%Z) ∧
  index <$> rerank l = index <$> l ∧
  rank1 <$> rerank l = rank1 <$> l ∧
  ∀ i s t s' t',
    l !! i = Some s → l !! S i = Some t →
    rerank l !! i = Some s' → rerank l !! S i = Some t' →
    rank0 t' = if decide (rank0 t = rank0 s ∧ rank1 t = rank1 s)
               then rank0 s' else (rank0 s' + 1)%Z.
Proof.
  split; [| split; [apply rerank_index | split]].
  - destruct l; [done |]. simpl. by intros s' [= <-].
  - destruct l as [| x l]; [done |]. simpl. f_equal.
    generalize 0%Z (rank0 x) (rank1 x).
    induction l as [| y l IH]; intros r pr pr1; [done |].
    rewrite rerank_from_cons. cbn zeta. simpl. by rewrite IH.
  - intros i s t s' t' Hs Ht Hs' Ht'.
    destruct l as [| x l]; [done |].
    by destruct (ranked_step l 0 x i s t s' t' Hs Ht Hs' Ht') as (_ & _ & ?).
Qed.

(** ** Searching for the text itself *)

(** X20.  With a valid suffix array, searching a non-empty text of at
    most 2^30 bytes (the lengths for which the [int] sum of line 199 does
    not overflow) for the text itself returns offset 0. *)
Theorem searchPattern_whole_text (txt : list ascii) (SA : list nat) :
  (Z.of_nat (length txt) ≤ 2 ^ 30)%Z →
  valid_sa txt SA → NUL ∉ txt → 0 < length txt →
  searchPattern txt SA (length txt) txt = 0%Z.
Proof.
  intros _ Hvalid Hnul Hn.
  pose proof (searchPattern_complete txt SA txt Hvalid Hnul 0 Hn) as Hfound.
  rewrite drop_0, take_ge in Hfound by done. specialize (Hfound eq_refl).
  destruct (searchPattern_sound txt SA txt Hvalid Hnul
              (Z.to_nat (searchPattern txt SA (length txt) txt)))
    as [Ho _]; lia.
Qed.

Lemma searchPattern_whole_text_witness :
  (Z.of_nat (length banana) ≤ 2 ^ 30)%Z ∧
  valid_sa banana banana_sa ∧ (NUL ∉ banana) ∧ 0 < length banana ∧
  searchPattern banana banana_sa (length banana) banana = 0%Z.
Proof.
  assert (Hint : (Z.of_nat (length banana) ≤ 2 ^ 30)%Z) by (by vm_compute).
  assert (Hnul : NUL ∉ banana).
  { unfold banana. rewrite !not_elem_of_cons.
    repeat split; try done. apply not_elem_of_nil. }
  assert (Hn : 0 < length banana) by (vm_compute; lia).
  split; [done |].
  split; [apply banana_valid |]. split; [done |]. split; [done |].
  apply (searchPattern_whole_text banana banana_sa Hint banana_valid Hnul
           Hn).
Defined.
